(** * treechat: the conversation tree of [tree.py]

    A shallow embedding of [Node], [ChatTree], [init_chat_tree] and the
    [/chat] handler, followed by the properties of the tree that the
    handlers rely on. *)

From Stdlib Require Import QArith.
From stdpp Require Import gmap strings list fin_maps.

Open Scope string_scope.
Open Scope list_scope.
Open Scope nat_scope.

(** ** Python values *)

(** Truthiness of an [Optional[str]]: [None] and the empty string are falsy. *)
Definition truthy (o : option string) : bool :=
  match o with
  | None => false
  | Some s => negb (String.eqb s "")
  end.

(** ** Data models *)

(** [class Node].  The value of [str(uuid.uuid4())] drawn by the
    constructor is the explicit argument [uuid]. *)
Record Node := mkNode {
  id : string;
  content : string;
  parent_id : option string;
  children : list string;
  is_user : bool
}.

Definition Node_init (uuid : string) (content : string)
    (parent_id : option string) (is_user : bool) : Node :=
  {| id := uuid; content := content; parent_id := parent_id;
     children := []; is_user := is_user |}.

(** [self.nodes[parent_id].children.append(node_id)] *)
Definition append_child (node_id : string) (n : Node) : Node :=
  {| id := id n; content := content n; parent_id := parent_id n;
     children := children n ++ [node_id]; is_user := is_user n |}.

(** [class ChatTree] *)
Record ChatTree := mkChatTree {
  nodes : gmap string Node;
  root_id : option string
}.

(** [ChatTree.__init__] *)
Definition ChatTree_init : ChatTree :=
  {| nodes := ∅; root_id := None |}.

(** [parent_id in self.nodes] for an [Optional[str]] key *)
Definition contains (m : gmap string Node) (k : option string) : bool :=
  match k with
  | None => false
  | Some p => bool_decide (is_Some (m !! p))
  end.

(** [ChatTree.add_node]: returns the tree after the call and the new id. *)
Definition add_node (uuid : string) (content : string)
    (parent_id : option string) (is_user : bool) (self : ChatTree)
    : ChatTree * string :=
  let node := Node_init uuid content parent_id is_user in
  let self1 :=
    if negb (truthy (root_id self)) then
      {| nodes := nodes self; root_id := Some (id node) |}
    else if contains (nodes self) parent_id then
      match parent_id with
      | Some p =>
          {| nodes := alter (append_child (id node)) p (nodes self);
             root_id := root_id self |}
      | None => self
      end
    else self in
  ({| nodes := <[id node := node]> (nodes self1); root_id := root_id self1 |},
   id node).

Definition greeting : string := "Hello! How can I assist you today?".

(** [init_chat_tree], acting on the module-level [chat_tree]. *)
Definition init_chat_tree (uuid : string) (chat_tree : ChatTree) : ChatTree :=
  let cleared := {| nodes := ∅; root_id := None |} in
  if bool_decide (nodes cleared = ∅) then
    fst (add_node uuid greeting None false cleared)
  else cleared.

(** ** The [/chat] handler *)

(** [class ChatRequest(BaseModel)] *)
Module ChatRequest.
Record t := mk {
  prompt : string;
  parent_id : option string;
  is_user : bool
}.
End ChatRequest.

(** A turn [{"role": ..., "content": ...}] of the conversation history. *)
Module Message.
Record t := mk { role : string; content : string }.
End Message.

(** The dictionary [{"id": ..., "content": ..., "parent_id": ...,
    "is_user": ...}] returned for a created node. *)
Module NodeView.
Record t := mk {
  id : string;
  content : string;
  parent_id : option string;
  is_user : bool
}.
End NodeView.

(** The keyword arguments of [client.chat.completions.create]. *)
Module Completion.
Record t := mk {
  model : string;
  messages : list Message.t;
  n : nat;
  temperature : Q
}.
End Completion.

(** What the handler returns: one view for a user turn, a list of views
    for generated replies. *)
Inductive Response :=
  | UserTurn (view : NodeView.t)
  | Replies (views : list NodeView.t).

(** Exceptions that leave the handler: the [HTTPException] it raises
    itself, and whatever the completion client raises. *)
Inductive Exception :=
  | HTTPException (status_code : Z) (detail : string)
  | OpenAIError (e : string).

(** The state a request runs against: the module-level [chat_tree], the
    number of [uuid.uuid4()] draws made so far, and the calls made to the
    completion provider (credential and arguments), oldest first. *)
Record World := mkWorld {
  chat_tree : ChatTree;
  uuid_calls : nat;
  provider_calls : list (string * Completion.t)
}.

Inductive Outcome (A : Type) :=
  | Returned (a : A)
  | Raised (e : Exception)
  | OutOfFuel.
Arguments Returned {A} a.
Arguments Raised {A} e.
Arguments OutOfFuel {A}.

(** State is threaded through every outcome: a Python exception does not
    undo the mutations made before it. *)
Definition M (A : Type) : Type := World → Outcome A * World.

Definition ret {A} (a : A) : M A := λ w, (Returned a, w).
Definition raise {A} (e : Exception) : M A := λ w, (Raised e, w).
Definition bind {A B} (c : M A) (k : A → M B) : M B :=
  λ w, match c w with
       | (Returned a, w') => k a w'
       | (Raised e, w') => (Raised e, w')
       | (OutOfFuel, w') => (OutOfFuel, w')
       end.

Declare Scope chat_scope.
Delimit Scope chat_scope with chat.
Notation "'do' x <~ c 'in' k" := (bind c (λ x, k))
  (at level 10, x name, c at level 100, k at level 200) : chat_scope.

Definition role_of (node : Node) : string :=
  if is_user node then "user" else "assistant".

Definition turn_of (node : Node) : Message.t :=
  {| Message.role := role_of node; Message.content := content node |}.

(** The node bound by the body of
    [while current_id and current_id in chat_tree.nodes], or [None] when
    the loop condition fails. *)
Definition loop_node (nodes : gmap string Node) (current_id : option string)
    : option Node :=
  if truthy current_id then current_id ≫= (nodes !!.) else None.

(** The history loop; [fuel] bounds the number of times the body runs,
    [None] means the bound was hit with the condition still true. *)
Fixpoint build_history (fuel : nat) (nodes : gmap string Node)
    (current_id : option string) (messages : list Message.t)
    : option (list Message.t) :=
  match loop_node nodes current_id with
  | None => Some messages
  | Some node =>
      match fuel with
      | O => None
      | S fuel' =>
          build_history fuel' nodes (parent_id node) (turn_of node :: messages)
      end
  end.

(** The same loop, collecting the visited nodes instead of their turns. *)
Fixpoint walk (fuel : nat) (nodes : gmap string Node)
    (current_id : option string) (chain : list Node) : option (list Node) :=
  match loop_node nodes current_id with
  | None => Some chain
  | Some node =>
      match fuel with
      | O => None
      | S fuel' => walk fuel' nodes (parent_id node) (node :: chain)
      end
  end.

Definition view_of (node_id content : string) (parent_id : option string)
    (is_user : bool) : NodeView.t :=
  {| NodeView.id := node_id; NodeView.content := content;
     NodeView.parent_id := parent_id; NodeView.is_user := is_user |}.

(** [content not in unique_responses], the dictionary kept as an
    association list in insertion order. *)
Definition has_key (content : string) (d : list (string * NodeView.t)) : bool :=
  bool_decide (content ∈ d.*1).

(** The literal [0.7] passed as [temperature].  The handler hands it to
    the provider untouched, so it is kept as the decimal it is written as. *)
Definition sampling_temperature : Q := 0.7%Q.

Section Handler.
(** [uuid4 k] is what the [k]-th call of [str(uuid.uuid4())] returns;
    [create key args] is the completion provider: it raises, or returns
    the [message.content] of each of [response.choices], in order. *)
Context (uuid4 : nat → string).
Context (create : string → Completion.t → string + list string).

Local Open Scope chat_scope.

(** [chat_tree.add_node(...)], drawing the id of the new [Node]. *)
Definition chat_tree_add_node (content : string) (parent_id : option string)
    (is_user : bool) : M string :=
  λ w, let '(tree, node_id) :=
         add_node (uuid4 (uuid_calls w)) content parent_id is_user (chat_tree w) in
       (Returned node_id,
        {| chat_tree := tree; uuid_calls := S (uuid_calls w);
           provider_calls := provider_calls w |}).

(** [client.chat.completions.create(...)] with [client = openai.OpenAI(api_key)] *)
Definition completions_create (api_key : string) (args : Completion.t)
    : M (list string) :=
  λ w, let w' := {| chat_tree := chat_tree w; uuid_calls := uuid_calls w;
                    provider_calls := provider_calls w ++ [(api_key, args)] |} in
       match create api_key args with
       | inl e => (Raised (OpenAIError e), w')
       | inr choices => (Returned choices, w')
       end.

(** The history loop run against the current tree. *)
Definition history (fuel : nat) (current_id : option string)
    : M (list Message.t) :=
  λ w, match build_history fuel (nodes (chat_tree w)) current_id [] with
       | Some messages => (Returned messages, w)
       | None => (OutOfFuel, w)
       end.

(** [for choice in response.choices: ...] *)
Fixpoint for_choices (parent_id : option string) (choices : list string)
    (unique_responses : list (string * NodeView.t))
    : M (list (string * NodeView.t)) :=
  match choices with
  | [] => ret unique_responses
  | content :: rest =>
      if negb (has_key content unique_responses) then
        do node_id <~ chat_tree_add_node content parent_id false in
        for_choices parent_id rest
          (unique_responses ++ [(content, view_of node_id content parent_id false)])
      else for_choices parent_id rest unique_responses
  end.

(** [async def chat(chat_request, request)], with
    [api_key = request.headers.get("X-API-Key")]. *)
Definition chat (fuel : nat) (chat_request : ChatRequest.t)
    (api_key : option string) : M Response :=
  if negb (truthy api_key) then
    raise (HTTPException 400 "OpenAI API key is required")
  else if ChatRequest.is_user chat_request then
    do node_id <~ chat_tree_add_node (ChatRequest.prompt chat_request)
                 (ChatRequest.parent_id chat_request) true in
    ret (UserTurn (view_of node_id (ChatRequest.prompt chat_request)
                     (ChatRequest.parent_id chat_request) true))
  else
    do messages <~ history fuel (ChatRequest.parent_id chat_request) in
    let messages :=
      messages ++ [ {| Message.role := "user";
                       Message.content := ChatRequest.prompt chat_request |} ] in
    do choices <~ completions_create (default "" api_key)
                 {| Completion.model := "gpt-3.5-turbo";
                    Completion.messages := messages;
                    Completion.n := 3;
                    Completion.temperature := sampling_temperature |} in
    do unique_responses <~ for_choices (ChatRequest.parent_id chat_request) choices [] in
    ret (Replies unique_responses.*2).
End Handler.

(** ** Reachable trees *)

(** What [uuid.uuid4()] is relied on for: the drawn id is a non-empty
    string that occurs nowhere in the store, neither as a key nor as a
    parent reference, and is not the parent the caller names. *)
Definition fresh_uuid (t : ChatTree) (parent : option string)
    (uuid : string) : Prop :=
  uuid ≠ "" ∧ nodes t !! uuid = None ∧ parent ≠ Some uuid ∧
  map_Forall (λ _ n, parent_id n ≠ Some uuid) (nodes t).

#[global] Instance fresh_uuid_dec t parent uuid :
  Decision (fresh_uuid t parent uuid).
Proof. unfold fresh_uuid. apply _. Defined.

(** Trees obtained from [ChatTree()] by [add_node] and [init_chat_tree]. *)
Inductive reachable : ChatTree → Prop :=
  | reach_new : reachable ChatTree_init
  | reach_add_node uuid content parent_id is_user t :
      reachable t →
      fresh_uuid t parent_id uuid →
      reachable (fst (add_node uuid content parent_id is_user t))
  | reach_reset uuid t :
      reachable t →
      uuid ≠ "" →
      reachable (init_chat_tree uuid t).

(** Consecutive elements of a root-first chain: each element's id is the
    next element's [parent_id]. *)
Fixpoint linked (chain : list Node) : Prop :=
  match chain with
  | a :: (b :: _) as rest => parent_id b = Some (id a) ∧ linked rest
  | _ => True
  end.

(** Unique strings in first-occurrence order: the head is kept and its
    later copies are dropped. *)
Fixpoint first_occurrences (l : list string) : list string :=
  match l with
  | [] => []
  | c :: rest => c :: filter (λ x, x ≠ c) (first_occurrences rest)
  end.

(** The arguments the handler passes to the provider for a replies
    request against tree [t]. *)
Definition completion_args (t : ChatTree) (chat_request : ChatRequest.t)
    : Completion.t :=
  {| Completion.model := "gpt-3.5-turbo";
     Completion.messages :=
       default [] (build_history (size (nodes t)) (nodes t)
                     (ChatRequest.parent_id chat_request) [])
       ++ [ {| Message.role := "user";
               Message.content := ChatRequest.prompt chat_request |} ];
     Completion.n := 3;
     Completion.temperature := sampling_temperature |}.

(** The world after one more provider call. *)
Definition called (api_key : string) (args : Completion.t) (w : World) : World :=
  {| chat_tree := chat_tree w; uuid_calls := uuid_calls w;
     provider_calls := provider_calls w ++ [(api_key, args)] |}.

(** The node stored under an old key [k] once [add_node] has run: the
    named parent gains the new id, every other node is untouched. *)
Definition relinked (uuid : string) (parent_id : option string)
    (t : ChatTree) (k : string) (n : Node) : Node :=
  if truthy (root_id t) && bool_decide (parent_id = Some k)
  then append_child uuid n else n.

(** The structure every reachable tree has. *)
Record tree_inv (t : ChatTree) : Prop := {
  inv_key : ∀ k n, nodes t !! k = Some n → id n = k ∧ k ≠ "";
  inv_root : ∀ k, is_Some (nodes t !! k) → truthy (root_id t) = true;
  inv_children : ∀ k n c,
    nodes t !! k = Some n → c ∈ children n →
    ∃ m, nodes t !! c = Some m ∧ parent_id m = Some k;
  inv_parent : ∀ k m p pn,
    nodes t !! k = Some m → parent_id m = Some p → nodes t !! p = Some pn →
    count_occ String.string_dec (children pn) k = 1;
  inv_rank : ∃ rank : string → nat, ∀ k n,
    nodes t !! k = Some n →
    rank k < size (nodes t) ∧
    ∀ p, parent_id n = Some p → is_Some (nodes t !! p) → rank p < rank k
}.

(** The tree once [add_node] has stored one assistant reply per element
    of [contents] under [parent_id], the first with id [uuid4 k], the
    next with [uuid4 (S k)], and so on. *)
Fixpoint add_replies (uuid4 : nat → string) (k : nat)
    (parent_id : option string) (contents : list string) (t : ChatTree)
    : ChatTree :=
  match contents with
  | [] => t
  | c :: rest =>
      add_replies uuid4 (S k) parent_id rest
        (fst (add_node (uuid4 k) c parent_id false t))
  end.

(** The entries [unique_responses] gains for those replies. *)
Fixpoint reply_items (uuid4 : nat → string) (k : nat)
    (parent_id : option string) (contents : list string)
    : list (string * NodeView.t) :=
  match contents with
  | [] => []
  | c :: rest =>
      (c, view_of (uuid4 k) c parent_id false)
      :: reply_items uuid4 (S k) parent_id rest
  end.

(** The ids the next [n] draws of [uuid4] give, counted from draw [k]. *)
Definition drawn (uuid4 : nat → string) (k n : nat) : list string :=
  uuid4 <$> seq k n.

(** Ids that are pairwise distinct and not yet keys of the store. *)
Definition fresh_ids (t : ChatTree) (ids : list string) : Prop :=
  NoDup ids ∧ Forall (λ u, nodes t !! u = None) ids.

#[global] Instance fresh_ids_dec t ids : Decision (fresh_ids t ids).
Proof. unfold fresh_ids. apply _. Defined.

(** A small tree used to exercise the statements below: the greeting
    ["a"] with one user turn ["b"] under it. *)
Definition sample_tree : ChatTree :=
  fst (add_node "b" "Hi" (Some "a") true (init_chat_tree "a" ChatTree_init)).

(** The draws of [uuid4] in the examples: ["a"], ["b"], ["c"], ... *)
Definition sample_uuid4 (k : nat) : string :=
  String (Ascii.ascii_of_nat (97 + k)) EmptyString.

(** The world in which [sample_tree] was built: two ids drawn, the
    provider never called. *)
Definition sample_world : World :=
  {| chat_tree := sample_tree; uuid_calls := 2; provider_calls := [] |}.

(** A provider stubbed to return the given candidates. *)
Definition stub (choices : list string)
    : string → Completion.t → string + list string :=
  λ _ _, inr choices.

(** ** The other handlers *)

(** The module-level state right after import: [chat_tree = ChatTree()],
    no id drawn, no provider call made. *)
Definition World_init : World :=
  {| chat_tree := ChatTree_init; uuid_calls := 0; provider_calls := [] |}.

Section Handlers.
Context (uuid4 : nat → string).

Local Open Scope chat_scope.

(** A call of [init_chat_tree()] against the module-level tree; the
    greeting takes the next id. *)
Definition call_init_chat_tree : M unit :=
  λ w, (Returned tt,
        {| chat_tree := init_chat_tree (uuid4 (uuid_calls w)) (chat_tree w);
           uuid_calls := S (uuid_calls w);
           provider_calls := provider_calls w |}).

(** [async def startup_event()] *)
Definition startup_event : M unit := call_init_chat_tree.

(** [async def get_tree()]: the dictionary [{"nodes": chat_tree.nodes}]. *)
Definition get_tree : M (list (string * gmap string Node)) :=
  λ w, (Returned [("nodes", nodes (chat_tree w))], w).

(** [async def reset_tree()]: the dictionary [{"status": "success"}]. *)
Definition reset_tree : M (list (string * string)) :=
  do _u <~ call_init_chat_tree in
  ret [("status", "success")].
End Handlers.

(** Ids drawn one after the other for nodes under [parent]: pairwise
    distinct, each one fresh for the tree the call starts from. *)
Definition fresh_draws (t : ChatTree) (parent : option string)
    (ids : list string) : Prop :=
  NoDup ids ∧ Forall (fresh_uuid t parent) ids.

#[global] Instance fresh_draws_dec t parent ids :
  Decision (fresh_draws t parent ids).
Proof. unfold fresh_draws. apply _. Defined.

(** The worlds the application goes through: the startup event, then any
    sequence of [/chat], [/reset] and [/tree] requests, every id drawn on
    the way being fresh. *)
Inductive served (uuid4 : nat → string) : World → Prop :=
  | served_startup :
      uuid4 0 ≠ "" →
      served uuid4 (snd (startup_event uuid4 World_init))
  | served_chat create fuel chat_request api_key w :
      served uuid4 w →
      fresh_draws (chat_tree w) (ChatRequest.parent_id chat_request)
        (drawn uuid4 (uuid_calls w)
           (uuid_calls (snd (chat uuid4 create fuel chat_request api_key w))
            - uuid_calls w)) →
      served uuid4 (snd (chat uuid4 create fuel chat_request api_key w))
  | served_reset w :
      served uuid4 w →
      uuid4 (uuid_calls w) ≠ "" →
      served uuid4 (snd (reset_tree uuid4 w))
  | served_get_tree w :
      served uuid4 w →
      served uuid4 (snd (get_tree w)).

(** Where the root stands in a tree: there is none and the store is
    empty, or it is a stored node whose own parent is no key. *)
Definition rooted (t : ChatTree) : Prop :=
  (root_id t = None ∧ nodes t = ∅) ∨
  (∃ r n, root_id t = Some r ∧ r ≠ "" ∧ nodes t !! r = Some n ∧
          id n = r ∧ loop_node (nodes t) (parent_id n) = None).

(** * Properties *)

(** ** Truthiness *)

Lemma truthy_Some s : truthy (Some s) = true ↔ s ≠ "".
Proof.
  unfold truthy. rewrite negb_true_iff.
  destruct (String.eqb_spec s ""); naive_solver.
Qed.

Lemma truthy_false o : truthy o = false ↔ o = None ∨ o = Some "".
Proof.
  destruct o as [s|]; simpl.
  - rewrite negb_false_iff.
    destruct (String.eqb_spec s "") as [->|Hs]; split; auto; try discriminate.
    intros [|]; congruence.
  - split; auto.
Qed.

(** ** [add_node] *)

Lemma add_node_root uuid content pid iu t :
  root_id (fst (add_node uuid content pid iu t))
  = if truthy (root_id t) then root_id t else Some uuid.
Proof.
  unfold add_node. simpl. destruct (truthy (root_id t)); simpl; [|done].
  destruct (contains _ _); [destruct pid|]; done.
Qed.

Lemma add_node_lookup_eq uuid content pid iu t :
  nodes (fst (add_node uuid content pid iu t)) !! uuid
  = Some (Node_init uuid content pid iu).
Proof. unfold add_node. simpl. apply lookup_insert_eq. Qed.

Lemma add_node_lookup_ne uuid content pid iu t k :
  k ≠ uuid →
  nodes (fst (add_node uuid content pid iu t)) !! k
  = relinked uuid pid t k <$> nodes t !! k.
Proof.
  intros Hk. unfold add_node, relinked. simpl.
  rewrite lookup_insert_ne by done.
  destruct (truthy (root_id t)); simpl.
  - destruct pid as [p|]; simpl.
    + case_bool_decide as Hp; simpl.
      * rewrite lookup_alter. case_decide as Hpk.
        -- subst p. by rewrite bool_decide_eq_true_2.
        -- rewrite bool_decide_eq_false_2 by congruence.
           by destruct (nodes t !! k).
      * case_bool_decide as Hpk.
        -- simplify_eq. apply eq_None_not_Some in Hp. by rewrite Hp.
        -- by destruct (nodes t !! k).
    + by destruct (nodes t !! k).
  - by destruct (nodes t !! k).
Qed.

Lemma relinked_fields uuid pid t k n :
  id (relinked uuid pid t k n) = id n ∧
  content (relinked uuid pid t k n) = content n ∧
  parent_id (relinked uuid pid t k n) = parent_id n ∧
  is_user (relinked uuid pid t k n) = is_user n.
Proof. unfold relinked. by destruct (_ && _). Qed.

Lemma add_node_dom uuid content pid iu t :
  dom (nodes (fst (add_node uuid content pid iu t))) = {[uuid]} ∪ dom (nodes t).
Proof.
  apply set_eq. intros k. rewrite elem_of_union, elem_of_singleton, !elem_of_dom.
  destruct (decide (k = uuid)) as [->|Hk].
  - rewrite add_node_lookup_eq. split; eauto.
  - rewrite add_node_lookup_ne by done. rewrite fmap_is_Some.
    split; [by right|by intros [?|?]].
Qed.

Lemma add_node_size uuid content pid iu t :
  nodes t !! uuid = None →
  size (nodes (fst (add_node uuid content pid iu t))) = S (size (nodes t)).
Proof.
  intros Hu. rewrite <- !size_dom, add_node_dom.
  rewrite size_union by (apply disjoint_singleton_l, not_elem_of_dom_2, Hu).
  by rewrite size_singleton.
Qed.

Lemma add_node_lookup_Some uuid content pid iu t k n' :
  nodes (fst (add_node uuid content pid iu t)) !! k = Some n' →
  (k = uuid ∧ n' = Node_init uuid content pid iu) ∨
  (k ≠ uuid ∧ ∃ n, nodes t !! k = Some n ∧ n' = relinked uuid pid t k n).
Proof.
  destruct (decide (k = uuid)) as [->|Hk].
  - rewrite add_node_lookup_eq. intros [= <-]. by left.
  - rewrite add_node_lookup_ne by done. intros Hn. right. split; [done|].
    destruct (nodes t !! k) as [n|]; [|done].
    exists n. by injection Hn as <-.
Qed.

Lemma relinked_children uuid pid t k n c :
  c ∈ children (relinked uuid pid t k n) →
  c ∈ children n ∨ (c = uuid ∧ pid = Some k).
Proof.
  unfold relinked. destruct (truthy (root_id t)); simpl; [|by left].
  case_bool_decide; simpl; [|by left].
  rewrite elem_of_app, list_elem_of_singleton. intros [?|?]; auto.
Qed.

Lemma relinked_count uuid pid t p pn k :
  k ≠ uuid →
  count_occ String.string_dec (children (relinked uuid pid t p pn)) k
  = count_occ String.string_dec (children pn) k.
Proof.
  intros Hk. unfold relinked. destruct (_ && _); [|done].
  simpl. rewrite count_occ_app. simpl.
  destruct (String.string_dec uuid k); [congruence|lia].
Qed.

(** ** The invariant *)

Lemma tree_inv_new : tree_inv ChatTree_init.
Proof.
  split; simpl.
  - intros k n. by rewrite lookup_empty.
  - intros k [n Hn]. by rewrite lookup_empty in Hn.
  - intros k n c. by rewrite lookup_empty.
  - intros k m p pn. by rewrite lookup_empty.
  - exists (λ _, 0). intros k n. by rewrite lookup_empty.
Qed.

Lemma tree_inv_add_node uuid content pid iu t :
  tree_inv t → fresh_uuid t pid uuid →
  tree_inv (fst (add_node uuid content pid iu t)).
Proof.
  intros [Hkey Hroot Hch Hpar [rank Hrank]] (Hu & Hnew & Hpid & Href).
  assert (Hold : ∀ k n, nodes t !! k = Some n → k ≠ uuid) by congruence.
  split.
  - intros k n' [[-> ->]|(Hk & n & Hn & ->)]%add_node_lookup_Some; [done|].
    destruct (relinked_fields uuid pid t k n) as (-> & _). eauto.
  - intros _ _. rewrite add_node_root.
    destruct (truthy (root_id t)) eqn:E; [done|]. by apply truthy_Some.
  - intros k n' c [[-> ->]|(Hk & n & Hn & ->)]%add_node_lookup_Some Hc.
    { by apply elem_of_nil in Hc. }
    apply relinked_children in Hc as [Hc|[-> ->]].
    + destruct (Hch _ _ _ Hn Hc) as (m & Hm & Hmp).
      exists (relinked uuid pid t c m). split.
      * rewrite add_node_lookup_ne by eauto. by rewrite Hm.
      * by destruct (relinked_fields uuid pid t c m) as (_ & _ & -> & _).
    + exists (Node_init uuid content (Some k) iu).
      by rewrite add_node_lookup_eq.
  - intros k m' p pn' Hm' Hp Hpn'.
    assert (p ≠ uuid) as Hpu.
    { apply add_node_lookup_Some in Hm' as [[-> ->]|(Hk & m & Hm & ->)].
      - simpl in Hp. congruence.
      - destruct (relinked_fields uuid pid t k m) as (_ & _ & Heq & _).
        rewrite Heq in Hp. intros ->. by apply (Href _ _ Hm). }
    apply add_node_lookup_Some in Hpn' as [[? _]|(_ & pn & Hpn & ->)]; [done|].
    apply add_node_lookup_Some in Hm' as [[-> ->]|(Hk & m & Hm & ->)].
    + simpl in Hp. subst pid. unfold relinked.
      rewrite (Hroot p) by eauto. rewrite bool_decide_eq_true_2 by done.
      simpl. rewrite count_occ_app. simpl.
      destruct (String.string_dec uuid uuid); [|done].
      rewrite (proj1 (count_occ_not_In String.string_dec (children pn) uuid)); [done|].
      rewrite <- list_elem_of_In. intros Hin.
      destruct (Hch _ _ _ Hpn Hin) as (m & Hm & _). congruence.
    + rewrite relinked_count by done.
      destruct (relinked_fields uuid pid t k m) as (_ & _ & Heq & _).
      rewrite Heq in Hp. eauto.
  - exists (λ k, if decide (k = uuid) then size (nodes t) else rank k).
    rewrite add_node_size by done.
    intros k n' Hn'.
    assert (∀ p, p ≠ uuid →
      is_Some (nodes (fst (add_node uuid content pid iu t)) !! p) →
      is_Some (nodes t !! p)) as Hres.
    { intros p Hp. rewrite add_node_lookup_ne by done. by rewrite fmap_is_Some. }
    apply add_node_lookup_Some in Hn' as [[-> ->]|(Hk & n & Hn & ->)].
    + rewrite decide_True by done. split; [lia|]. simpl. intros p -> Hp.
      assert (p ≠ uuid) by congruence. rewrite decide_False by done.
      destruct (Hres p) as [pn Hpn]; [done..|].
      apply (Hrank _ _ Hpn).
    + rewrite decide_False by done.
      destruct (Hrank _ _ Hn) as [Hlt Hup]. split; [lia|].
      destruct (relinked_fields uuid pid t k n) as (_ & _ & -> & _).
      intros p Hp Hsome.
      assert (p ≠ uuid) by (intros ->; by apply (Href _ _ Hn)).
      rewrite decide_False by done. apply Hup; auto.
Qed.

Lemma init_chat_tree_unfold uuid t :
  init_chat_tree uuid t = fst (add_node uuid greeting None false ChatTree_init).
Proof. reflexivity. Qed.

Lemma fresh_uuid_new pid uuid :
  uuid ≠ "" → pid ≠ Some uuid → fresh_uuid ChatTree_init pid uuid.
Proof.
  intros Hu Hp. unfold fresh_uuid. split_and!; done.
Qed.

Lemma tree_inv_reset uuid t : uuid ≠ "" → tree_inv (init_chat_tree uuid t).
Proof.
  intros Hu. rewrite init_chat_tree_unfold.
  apply tree_inv_add_node; [apply tree_inv_new|by apply fresh_uuid_new].
Qed.

Lemma reachable_inv t : reachable t → tree_inv t.
Proof.
  induction 1 as [|uuid content pid iu t _ IH Hfresh|uuid t _ _ Hu].
  - apply tree_inv_new.
  - by apply tree_inv_add_node.
  - by apply tree_inv_reset.
Qed.

(** ** The history walk *)

Lemma loop_node_Some nodes cur n :
  loop_node nodes cur = Some n ↔ ∃ k, cur = Some k ∧ k ≠ "" ∧ nodes !! k = Some n.
Proof.
  unfold loop_node. destruct cur as [k|]; simpl.
  - destruct (negb (String.eqb k "")) eqn:E.
    + apply (truthy_Some k) in E. split; [eauto|]. by intros (? & [= <-] & _ & ?).
    + split; [done|]. intros (? & [= <-] & Hk & _).
      apply (truthy_Some k) in Hk. simpl in Hk. congruence.
  - split; [done|]. by intros (? & ? & _).
Qed.

Lemma walk_acc fuel nodes cur chain :
  walk fuel nodes cur chain = (λ l, l ++ chain) <$> walk fuel nodes cur [].
Proof.
  revert cur chain. induction fuel as [|fuel IH]; intros cur chain; simpl.
  - by destruct (loop_node nodes cur).
  - destruct (loop_node nodes cur) as [n|]; [|done].
    rewrite (IH _ (n :: chain)), (IH _ [n]).
    destruct (walk fuel nodes (parent_id n) []) as [l|]; [|done].
    simpl. by rewrite <- app_assoc.
Qed.

Lemma walk_fuel_mono fuel fuel' nodes cur chain r :
  walk fuel nodes cur chain = Some r → fuel ≤ fuel' →
  walk fuel' nodes cur chain = Some r.
Proof.
  revert fuel' cur chain.
  induction fuel as [|fuel IH]; intros fuel' cur chain; simpl.
  - destruct (loop_node nodes cur) eqn:E; [done|].
    intros Hr _. destruct fuel'; simpl; by rewrite E.
  - destruct (loop_node nodes cur) as [n|] eqn:E.
    + intros Hr Hle. destruct fuel' as [|fuel']; [lia|].
      simpl. rewrite E. apply IH; [done|lia].
    + intros Hr _. destruct fuel'; simpl; by rewrite E.
Qed.

Lemma build_history_walk fuel nodes cur (chain : list Node) :
  build_history fuel nodes cur (turn_of <$> chain)
  = fmap (M:=list) turn_of <$> walk fuel nodes cur chain.
Proof.
  revert cur chain. induction fuel as [|fuel IH]; intros cur chain; simpl.
  - by destruct (loop_node nodes cur).
  - destruct (loop_node nodes cur) as [n|]; [|done].
    by rewrite <- IH.
Qed.

Lemma linked_snoc chain n :
  linked chain →
  (∀ p, last chain = Some p → parent_id n = Some (id p)) →
  linked (chain ++ [n]).
Proof.
  induction chain as [|a [|b rest] IH]; simpl; intros Hl Hlast.
  - done.
  - split; [|done]. by apply Hlast.
  - destruct Hl as [Hab Hl]. split; [done|]. by apply IH.
Qed.

Section Walk.
Context (nodes : gmap string Node) (rank : string → nat).
Hypothesis Hkey : ∀ k n, nodes !! k = Some n → id n = k.
Hypothesis Hrank : ∀ k n p,
  nodes !! k = Some n → parent_id n = Some p → is_Some (nodes !! p) →
  rank p < rank k.

Lemma walk_spec fuel cur :
  (∀ n, loop_node nodes cur = Some n → rank (id n) < fuel) →
  ∃ chain,
    walk fuel nodes cur [] = Some chain ∧
    length chain ≤ fuel ∧
    linked chain ∧
    last chain = loop_node nodes cur ∧
    (∀ a, head chain = Some a → loop_node nodes (parent_id a) = None) ∧
    (∀ a, a ∈ chain →
       nodes !! id a = Some a ∧
       ∃ n, loop_node nodes cur = Some n ∧ rank (id a) ≤ rank (id n)).
Proof.
  revert cur. induction fuel as [|fuel IH]; intros cur Hfuel; simpl.
  - destruct (loop_node nodes cur) as [n|] eqn:E.
    { specialize (Hfuel n eq_refl). lia. }
    exists []. split_and!; try done. intros a Ha. by apply elem_of_nil in Ha.
  - destruct (loop_node nodes cur) as [n|] eqn:E; last first.
    { exists []. split_and!; try done; [simpl; lia|].
      intros a Ha. by apply elem_of_nil in Ha. }
    pose proof E as (k & -> & Hk & Hn)%loop_node_Some.
    pose proof (Hkey _ _ Hn) as Hid.
    assert (∀ pn, loop_node nodes (parent_id n) = Some pn →
                  parent_id n = Some (id pn) ∧ rank (id pn) < rank k) as Hup.
    { intros pn (p & Hp & _ & Hpn)%loop_node_Some.
      rewrite (Hkey _ _ Hpn). split; [done|]. eapply Hrank; eauto. }
    destruct (IH (parent_id n)) as (above & Hw & Hlen & Hlink & Hlast & Hhead & Hmem).
    { intros pn Hpn. destruct (Hup pn Hpn) as [_ Hlt].
      specialize (Hfuel n eq_refl). rewrite Hid in Hfuel. lia. }
    exists (above ++ [n]). split_and!.
    + by rewrite walk_acc, Hw.
    + rewrite length_app. simpl. lia.
    + apply linked_snoc; [done|]. intros p Hp. rewrite Hlast in Hp.
      by apply Hup.
    + by rewrite last_snoc.
    + intros a. destruct above as [|b above]; simpl.
      * intros [= <-]. by rewrite <- Hlast.
      * intros [= <-]. by apply Hhead.
    + intros a [Ha| ->%list_elem_of_singleton]%elem_of_app.
      * destruct (Hmem a Ha) as (Hsto & pn & Hpn & Hle).
        split; [done|]. exists n. split; [done|].
        destruct (Hup pn Hpn) as [_ Hlt]. rewrite Hid. lia.
      * rewrite Hid. split; [done|]. exists n. by rewrite Hid.
Qed.
End Walk.

Lemma reachable_walk t cur :
  reachable t →
  ∃ chain,
    (∀ fuel, size (nodes t) ≤ fuel → walk fuel (nodes t) cur [] = Some chain) ∧
    length chain ≤ size (nodes t) ∧
    linked chain ∧
    last chain = loop_node (nodes t) cur ∧
    (∀ a, head chain = Some a → loop_node (nodes t) (parent_id a) = None) ∧
    (∀ a, a ∈ chain → nodes t !! id a = Some a) ∧
    (∀ a n, a ∈ chain → cur = parent_id n → nodes t !! id n = Some n →
       id a ≠ id n).
Proof.
  intros [Hkey _ _ _ [rank Hrank]]%reachable_inv.
  assert (Hkey' : ∀ k n, nodes t !! k = Some n → id n = k).
  { intros k n Hn. by apply Hkey. }
  assert (Hrank' : ∀ k n p, nodes t !! k = Some n → parent_id n = Some p →
                   is_Some (nodes t !! p) → rank p < rank k).
  { intros k n p Hn. by apply Hrank. }
  destruct (walk_spec (nodes t) rank Hkey' Hrank' (size (nodes t)) cur)
    as (chain & Hw & Hlen & Hlink & Hlast & Hhead & Hmem).
  { intros n (k & _ & _ & Hn)%loop_node_Some.
    rewrite (Hkey' _ _ Hn). by apply (Hrank _ _ Hn). }
  exists chain. split_and!; try done.
  - intros fuel Hfuel. by apply (walk_fuel_mono (size (nodes t))).
  - intros a Ha. by destruct (Hmem a Ha).
  - intros a n Ha -> Hn Heq.
    destruct (Hmem a Ha) as (_ & top & Htop & Hle).
    apply loop_node_Some in Htop as (p & Hp & _ & Htop).
    rewrite (Hkey' _ _ Htop) in Hle.
    assert (rank p < rank (id n)) by (eapply Hrank'; eauto).
    rewrite Heq in Hle. lia.
Qed.

Lemma sample_tree_reachable : reachable sample_tree.
Proof.
  apply reach_add_node; [apply reach_reset; [apply reach_new|done]|].
  compute_done.
Qed.

(** ** Deduplication *)

Lemma first_occurrences_elem c l : c ∈ first_occurrences l ↔ c ∈ l.
Proof.
  induction l as [|x l IH]; simpl; [done|].
  rewrite !elem_of_cons, list_elem_of_filter, IH. split.
  - intros [->|[_ ?]]; auto.
  - intros [->|?]; [by left|].
    destruct (decide (c = x)) as [->|]; [by left|by right].
Qed.

Lemma first_occurrences_NoDup l : NoDup (first_occurrences l).
Proof.
  induction l as [|x l IH]; simpl; [constructor|].
  apply NoDup_cons. split.
  - rewrite list_elem_of_filter. by intros [? _].
  - by apply NoDup_filter.
Qed.

Lemma filter_seen_cons (seen : list string) c (l : list string) :
  filter (λ x, x ∉ seen ++ [c]) l = filter (λ x, x ∉ seen) (filter (λ x, x ≠ c) l).
Proof.
  rewrite list_filter_filter. apply list_filter_iff. intros x.
  rewrite not_elem_of_app, list_elem_of_singleton. done.
Qed.

Lemma filter_seen_drop (seen : list string) c (l : list string) :
  c ∈ seen →
  filter (λ x, x ∉ seen) (filter (λ x, x ≠ c) l) = filter (λ x, x ∉ seen) l.
Proof.
  intros Hc. rewrite list_filter_filter. apply list_filter_iff. intros x.
  split; [by intros [? _]|]. intros Hx. split; [done|]. by intros ->.
Qed.

Lemma reply_views_content uuid4 k pid contents :
  NodeView.content <$> (reply_items uuid4 k pid contents).*2 = contents.
Proof.
  revert k. induction contents as [|c rest IH]; intros k; [done|].
  cbn [reply_items]. rewrite !fmap_cons, IH. done.
Qed.

Lemma reply_views_id uuid4 k pid contents :
  NodeView.id <$> (reply_items uuid4 k pid contents).*2
  = drawn uuid4 k (length contents).
Proof.
  revert k. induction contents as [|c rest IH]; intros k; [done|].
  cbn [reply_items]. rewrite !fmap_cons, IH. done.
Qed.

Lemma reply_views_parent uuid4 k pid contents :
  Forall (λ v, NodeView.parent_id v = pid ∧ NodeView.is_user v = false)
    (reply_items uuid4 k pid contents).*2.
Proof.
  revert k. induction contents as [|c rest IH]; intros k; [constructor|].
  cbn [reply_items]. rewrite fmap_cons. constructor; [done|apply IH].
Qed.

Section HandlerFacts.
Context (uuid4 : nat → string).
Context (create : string → Completion.t → string + list string).

Lemma for_choices_spec pid choices unique w :
  let new := filter (λ c, c ∉ unique.*1) (first_occurrences choices) in
  for_choices uuid4 pid choices unique w
  = (Returned (unique ++ reply_items uuid4 (uuid_calls w) pid new),
     {| chat_tree := add_replies uuid4 (uuid_calls w) pid new (chat_tree w);
        uuid_calls := uuid_calls w + length new;
        provider_calls := provider_calls w |}).
Proof.
  cbv zeta. revert unique w.
  induction choices as [|c rest IH]; intros unique w; simpl.
  - unfold ret. rewrite app_nil_r, Nat.add_0_r. by destruct w.
  - unfold has_key. case_bool_decide as Hc; simpl.
    + rewrite filter_cons_False by auto.
      rewrite IH. by rewrite filter_seen_drop.
    + rewrite filter_cons_True by done.
      unfold bind, chat_tree_add_node. simpl.
      rewrite IH. simpl. rewrite fmap_app. simpl.
      rewrite filter_seen_cons, <- app_assoc. simpl.
      do 3 f_equal. lia.
Qed.
End HandlerFacts.

(** ** Storing the replies *)

Lemma drawn_cons uuid4 k n :
  drawn uuid4 k (S n) = uuid4 k :: drawn uuid4 (S k) n.
Proof. reflexivity. Qed.

Lemma add_replies_persist uuid4 pid contents k t k0 n :
  nodes t !! k0 = Some n →
  k0 ∉ drawn uuid4 k (length contents) →
  ∃ n', nodes (add_replies uuid4 k pid contents t) !! k0 = Some n' ∧
        id n' = id n ∧ content n' = content n ∧
        parent_id n' = parent_id n ∧ is_user n' = is_user n.
Proof.
  revert k t n. induction contents as [|c rest IH]; intros k t n Hn Hk0; simpl.
  - by exists n.
  - simpl in Hk0. rewrite drawn_cons in Hk0.
    apply not_elem_of_cons in Hk0 as [Hne Hk0].
    destruct (IH (S k) (fst (add_node (uuid4 k) c pid false t))
                (relinked (uuid4 k) pid t k0 n)) as (n' & Hn' & Hf); [|done|].
    { rewrite add_node_lookup_ne by done. by rewrite Hn. }
    exists n'. split; [done|].
    destruct (relinked_fields (uuid4 k) pid t k0 n) as (<- & <- & <- & <-).
    done.
Qed.

Lemma add_replies_fresh uuid4 pid contents k t :
  fresh_ids t (drawn uuid4 k (length contents)) →
  size (nodes (add_replies uuid4 k pid contents t))
    = size (nodes t) + length contents ∧
  ∀ i c, contents !! i = Some c →
    ∃ n, nodes (add_replies uuid4 k pid contents t) !! uuid4 (k + i) = Some n ∧
         id n = uuid4 (k + i) ∧ content n = c ∧
         parent_id n = pid ∧ is_user n = false.
Proof.
  revert k t. induction contents as [|c rest IH]; intros k t;
    cbn [add_replies length].
  - intros _. split; [lia|]. intros i c. by rewrite lookup_nil.
  - rewrite drawn_cons. intros [[Hu Hnd]%NoDup_cons [Hnew Hrest]%Forall_cons].
    set (t1 := fst (add_node (uuid4 k) c pid false t)).
    destruct (IH (S k) t1) as [Hsize Hlook].
    { split; [done|]. apply Forall_forall. intros u Hin.
      rewrite Forall_forall in Hrest. unfold t1.
      rewrite add_node_lookup_ne by (by intros ->).
      by rewrite (Hrest u Hin). }
    split.
    + rewrite Hsize. unfold t1. rewrite add_node_size by done. lia.
    + intros [|i] c'; simpl.
      * intros [= <-]. rewrite Nat.add_0_r.
        destruct (add_replies_persist uuid4 pid rest (S k) t1 (uuid4 k)
                    (Node_init (uuid4 k) c pid false))
          as (n & Hn & Hf); [apply add_node_lookup_eq|done|].
        exists n. split; [done|]. by destruct Hf as (-> & -> & -> & ->).
      * intros Hc. replace (k + S i) with (S k + i) by lia. by apply Hlook.
Qed.

Lemma add_replies_children uuid4 contents k t p pn :
  truthy (root_id t) = true →
  nodes t !! p = Some pn →
  p ∉ drawn uuid4 k (length contents) →
  ∃ pn', nodes (add_replies uuid4 k (Some p) contents t) !! p = Some pn' ∧
         children pn' = children pn ++ drawn uuid4 k (length contents).
Proof.
  revert k t pn. induction contents as [|c rest IH]; intros k t pn Hroot Hp Hk;
    cbn [add_replies length].
  - exists pn. split; [done|]. by rewrite app_nil_r.
  - cbn [length] in Hk. rewrite drawn_cons in Hk |- *.
    apply not_elem_of_cons in Hk as [Hne Hk].
    destruct (IH (S k) (fst (add_node (uuid4 k) c (Some p) false t))
                (append_child (uuid4 k) pn)) as (pn' & Hpn' & Hch); [| |done|].
    + by rewrite add_node_root, Hroot.
    + rewrite add_node_lookup_ne, Hp by done. unfold relinked.
      by rewrite Hroot, bool_decide_eq_true_2.
    + exists pn'. split; [done|]. rewrite Hch. simpl. by rewrite <- app_assoc.
Qed.

(** ** Running the handler *)

Lemma filter_not_in_nil (l : list string) : filter (λ c, c ∉ @nil string) l = l.
Proof.
  induction l as [|x l IH]; [done|].
  rewrite filter_cons_True by apply not_elem_of_nil. by rewrite IH.
Qed.

Lemma reachable_history t current_id :
  reachable t →
  ∃ messages,
    length messages ≤ size (nodes t) ∧
    ∀ fuel, size (nodes t) ≤ fuel →
      build_history fuel (nodes t) current_id [] = Some messages.
Proof.
  intros Hreach.
  destruct (reachable_walk t current_id Hreach) as (chain & Hw & Hlen & _).
  exists (turn_of <$> chain). split.
  - by rewrite length_fmap.
  - intros fuel Hfuel.
    change (@nil Message.t) with (turn_of <$> @nil Node).
    by rewrite build_history_walk, (Hw fuel Hfuel).
Qed.

Lemma chat_replies_run uuid4 create fuel chat_request api_key w :
  reachable (chat_tree w) →
  size (nodes (chat_tree w)) ≤ fuel →
  truthy api_key = true →
  ChatRequest.is_user chat_request = false →
  chat uuid4 create fuel chat_request api_key w
  = let key := default "" api_key in
    let args := completion_args (chat_tree w) chat_request in
    match create key args with
    | inl e => (Raised (OpenAIError e), called key args w)
    | inr choices =>
        let new := first_occurrences choices in
        let pid := ChatRequest.parent_id chat_request in
        (Returned (Replies (reply_items uuid4 (uuid_calls w) pid new).*2),
         {| chat_tree := add_replies uuid4 (uuid_calls w) pid new (chat_tree w);
            uuid_calls := uuid_calls w + length new;
            provider_calls := provider_calls w ++ [(key, args)] |})
    end.
Proof.
  intros Hreach Hfuel Hkey Huser. cbv zeta.
  destruct (reachable_history (chat_tree w)
              (ChatRequest.parent_id chat_request) Hreach)
    as (messages & _ & Hm).
  unfold chat, completion_args. rewrite Hkey, Huser. simpl.
  unfold bind, history. rewrite (Hm fuel Hfuel), (Hm _ (le_n _)). simpl.
  unfold completions_create.
  destruct (create _ _) as [e|choices]; [done|].
  rewrite for_choices_spec. simpl. by rewrite filter_not_in_nil.
Qed.

(** * The claims *)

(** ** The store *)

(** C8. [add_node] always stores the node it builds under the id it draws
    and returns that id; the stored node keeps the [parent_id] it was
    given, whatever it is.  When the tree has no root yet the new node
    becomes the root.  When the given [parent_id] is not a key of the
    store the node is still stored, and no other node is changed (it is
    in no children list: an orphan). *)
Theorem add_node_stores uuid content pid iu t :
  let t' := fst (add_node uuid content pid iu t) in
  snd (add_node uuid content pid iu t) = uuid ∧
  nodes t' !! uuid
    = Some {| id := uuid; content := content; parent_id := pid;
              children := []; is_user := iu |} ∧
  (truthy (root_id t) = false → root_id t' = Some uuid) ∧
  (truthy (root_id t) = true → root_id t' = root_id t) ∧
  (contains (nodes t) pid = false →
   ∀ k, k ≠ uuid → nodes t' !! k = nodes t !! k).
Proof.
  cbv zeta. split_and!.
  - done.
  - apply add_node_lookup_eq.
  - intros Hr. by rewrite add_node_root, Hr.
  - intros Hr. by rewrite add_node_root, Hr.
  - intros Hp k Hk. rewrite add_node_lookup_ne by done.
    unfold relinked. destruct (truthy (root_id t)); simpl.
    + case_bool_decide as Hpk; [|by destruct (nodes t !! k)].
      subst pid. simpl in Hp. apply bool_decide_eq_false in Hp.
      apply eq_None_not_Some in Hp. by rewrite Hp.
    + by destruct (nodes t !! k).
Qed.

Lemma add_node_stores_witness :
  let t' := fst (add_node "a" "Hi" (Some "nope") true ChatTree_init) in
  root_id t' = Some "a" ∧
  (nodes t' !! "a" ≫= parent_id) = Some "nope" ∧
  nodes t' !! "nope" = None.
Proof.
  destruct (add_node_stores "a" "Hi" (Some "nope") true ChatTree_init)
    as (_ & Hsto & Hroot & _ & Hother).
  cbv zeta. split_and!.
  - apply Hroot. reflexivity.
  - by rewrite Hsto.
  - rewrite Hother; [reflexivity|reflexivity|discriminate].
Defined.

(** C9. Whatever the tree held, after [init_chat_tree] it holds exactly
    one node: the greeting, authored by the assistant, and it is the
    root.  Running it twice in a row leaves the same one-node tree as
    running the second call alone. *)
Theorem init_chat_tree_single uuid t :
  let t' := init_chat_tree uuid t in
  nodes t' = {[ uuid := {| id := uuid; content := greeting; parent_id := None;
                           children := []; is_user := false |} ]} ∧
  size (nodes t') = 1 ∧
  root_id t' = Some uuid ∧
  ∀ uuid', init_chat_tree uuid' t' = init_chat_tree uuid' t.
Proof.
  cbv zeta. split_and!.
  - rewrite init_chat_tree_unfold. unfold add_node. simpl.
    apply insert_empty.
  - rewrite init_chat_tree_unfold. unfold add_node. simpl.
    rewrite insert_empty. apply map_size_singleton.
  - reflexivity.
  - reflexivity.
Qed.

(** C4 (as stated, refuted). A reachable tree can hold a node whose
    [parent_id] is not a key of the store. *)
Lemma dangling_parent_reachable :
  let t := fst (add_node "b" "Hi" (Some "nope") true
                  (init_chat_tree "a" ChatTree_init)) in
  reachable t ∧
  ∃ n, nodes t !! "b" = Some n ∧ parent_id n = Some "nope" ∧
       nodes t !! "nope" = None.
Proof.
  cbv zeta. split.
  - apply reach_add_node; [apply reach_reset; [apply reach_new|done]|].
    compute_done.
  - eexists. split; [apply add_node_lookup_eq|]. split; [reflexivity|].
    compute_done.
Qed.

(** C4 (amended). In every tree reachable by [add_node] and
    [init_chat_tree], every id that appears in a node's [children] list
    is a key of the store. *)
Theorem children_in_store t :
  reachable t →
  ∀ k n c, nodes t !! k = Some n → c ∈ children n → is_Some (nodes t !! c).
Proof.
  intros Hinv%reachable_inv k n c Hn Hc.
  destruct (inv_children t Hinv _ _ _ Hn Hc) as (m & Hm & _). eauto.
Qed.

Lemma children_in_store_witness : is_Some (nodes sample_tree !! "b").
Proof.
  apply (children_in_store sample_tree sample_tree_reachable
           "a" (append_child "b" (Node_init "a" greeting None false)) "b").
  - compute_done.
  - compute_done.
Defined.

(** C7. In every reachable tree, a node's [children] list holds only ids
    of stored nodes whose [parent_id] is that node's id, and every node
    whose [parent_id] is a key of the store occurs exactly once in that
    parent's [children]. *)
Theorem children_parent_linkage t :
  reachable t →
  (∀ k n c, nodes t !! k = Some n → c ∈ children n →
     ∃ m, nodes t !! c = Some m ∧ parent_id m = Some (id n)) ∧
  (∀ k m p pn, nodes t !! k = Some m → parent_id m = Some p →
     nodes t !! p = Some pn →
     count_occ String.string_dec (children pn) (id m) = 1).
Proof.
  intros Hinv%reachable_inv. split.
  - intros k n c Hn Hc. destruct (inv_key t Hinv _ _ Hn) as [-> _].
    eapply inv_children; eauto.
  - intros k m p pn Hm Hp Hpn. destruct (inv_key t Hinv _ _ Hm) as [-> _].
    eapply inv_parent; eauto.
Qed.

Lemma children_parent_linkage_witness :
  count_occ String.string_dec
    (children (append_child "b" (Node_init "a" greeting None false))) "b" = 1.
Proof.
  apply (proj2 (children_parent_linkage sample_tree sample_tree_reachable)
           "b" (Node_init "b" "Hi" (Some "a") true)
           "a" (append_child "b" (Node_init "a" greeting None false))).
  - compute_done.
  - reflexivity.
  - compute_done.
Defined.

(** ** The ancestor walk *)

(** C1 (as stated, refuted). Started at the id of the stored node ["b"],
    the walk returns a chain whose last element is that node itself: the
    node is not excluded, and the last element's id is not its
    [parent_id]. *)
Lemma walk_includes_start :
  let b := Node_init "b" "Hi" (Some "a") true in
  reachable sample_tree ∧
  nodes sample_tree !! "b" = Some b ∧
  ∃ chain,
    walk (size (nodes sample_tree)) (nodes sample_tree) (Some (id b)) []
      = Some chain ∧
    b ∈ chain ∧
    last chain = Some b ∧
    parent_id b ≠ Some (id b).
Proof.
  cbv zeta. split_and!.
  - apply sample_tree_reachable.
  - compute_done.
  - exists [append_child "b" (Node_init "a" greeting None false);
            Node_init "b" "Hi" (Some "a") true].
    split_and!.
    + vm_compute. reflexivity.
    + apply elem_of_cons. right. apply elem_of_cons. by left.
    + reflexivity.
    + discriminate.
Qed.

(** C1 (amended). For every node [n] stored in a reachable tree, the walk
    started at [n]'s id returns, root first, the chain [above ++ [n]]:
    each element's id is the next element's [parent_id], the first
    element has no resolving parent, and [n] itself is the last element.
    The part [above] is what the walk started at [n]'s [parent_id]
    returns; it does not contain [n], and its last element, when there is
    one, has the id that is [n]'s [parent_id].  The history sent to the
    provider is the turns of that chain. *)
Theorem walk_chain t i n :
  reachable t → nodes t !! i = Some n →
  ∃ above,
    (∀ fuel, size (nodes t) ≤ fuel →
       walk fuel (nodes t) (Some (id n)) [] = Some (above ++ [n]) ∧
       walk fuel (nodes t) (parent_id n) [] = Some above ∧
       build_history fuel (nodes t) (Some (id n)) []
         = Some (turn_of <$> above ++ [n])) ∧
    linked (above ++ [n]) ∧
    (∀ a, head (above ++ [n]) = Some a →
       loop_node (nodes t) (parent_id a) = None) ∧
    (∀ p, last above = Some p → parent_id n = Some (id p)) ∧
    (∀ a, a ∈ above → id a ≠ id n).
Proof.
  intros Hreach Hn.
  destruct (inv_key t (reachable_inv t Hreach) _ _ Hn) as [Hid Hi].
  rewrite Hid.
  destruct (reachable_walk t (parent_id n) Hreach)
    as (above & Hw & _ & _ & Hlast & _ & _ & Hexcl).
  destruct (reachable_walk t (Some i) Hreach)
    as (chain & Hwi & _ & Hlink & _ & Hhead & _).
  assert (loop_node (nodes t) (Some i) = Some n) as Hloop.
  { apply loop_node_Some. eauto. }
  assert (chain = above ++ [n]) as ->.
  { specialize (Hwi (S (size (nodes t))) ltac:(lia)). simpl in Hwi.
    rewrite Hloop, walk_acc, (Hw (size (nodes t))) in Hwi by lia.
    by injection Hwi as <-. }
  assert (∀ fuel, size (nodes t) ≤ fuel →
            walk fuel (nodes t) (Some i) [] = Some (above ++ [n])) as Hwi'.
  { done. }
  exists above. split_and!; try done.
  - intros fuel Hfuel. split_and!; auto.
    change (@nil Message.t) with (turn_of <$> @nil Node).
    by rewrite build_history_walk, (Hwi' fuel Hfuel).
  - intros p Hp. rewrite Hlast in Hp.
    apply loop_node_Some in Hp as (k & Hk & _ & Hp).
    by rewrite (proj1 (inv_key t (reachable_inv t Hreach) _ _ Hp)).
  - intros a Ha. rewrite <- Hid. apply (Hexcl a n); [done..|by rewrite Hid].
Qed.

Lemma walk_chain_witness :
  ∃ above,
    walk 2 (nodes sample_tree) (Some "b") []
      = Some (above ++ [Node_init "b" "Hi" (Some "a") true]) ∧
    walk 2 (nodes sample_tree) (Some "a") [] = Some above.
Proof.
  destruct (walk_chain sample_tree "b" (Node_init "b" "Hi" (Some "a") true)
              sample_tree_reachable ltac:(compute_done))
    as (above & Hw & _).
  exists above.
  destruct (Hw 2 ltac:(compute_done)) as (Hb & Ha & _).
  split; [exact Hb|exact Ha].
Defined.

(** C10. In every reachable tree, from any starting id, the history loop
    leaves after at most [size nodes] runs of its body: that much fuel
    is enough, and the history it returns is no longer than that. *)
Theorem history_terminates t current_id :
  reachable t →
  ∃ messages,
    length messages ≤ size (nodes t) ∧
    ∀ fuel, size (nodes t) ≤ fuel →
      build_history fuel (nodes t) current_id [] = Some messages.
Proof. apply reachable_history. Qed.

Lemma history_terminates_witness :
  ∃ messages,
    length messages ≤ 2 ∧
    build_history 2 (nodes sample_tree) (Some "b") [] = Some messages.
Proof.
  destruct (history_terminates sample_tree (Some "b") sample_tree_reachable)
    as (messages & Hlen & Hm).
  exists messages. split.
  - exact Hlen.
  - apply Hm. compute_done.
Defined.

(** ** The chat handler *)

(** C6. A replies request without a credential (no header, or an empty
    one) fails with the 400 "API key is required" error, and the world is
    exactly as before: no draw, no provider call, the tree untouched. *)
Theorem replies_need_credential uuid4 create fuel chat_request api_key w :
  ChatRequest.is_user chat_request = false →
  api_key = None ∨ api_key = Some "" →
  chat uuid4 create fuel chat_request api_key w
  = (Raised (HTTPException 400 "OpenAI API key is required"), w).
Proof.
  intros _ Hkey%truthy_false. unfold chat. by rewrite Hkey.
Qed.

Lemma replies_need_credential_witness :
  chat sample_uuid4 (stub ["I'm good"]) 2
    (ChatRequest.mk "How are you?" (Some "b") false) None sample_world
  = (Raised (HTTPException 400 "OpenAI API key is required"), sample_world).
Proof. apply replies_need_credential; [reflexivity|left; reflexivity]. Defined.

(** C2 (as stated, refuted). A user turn submitted without a credential
    does not succeed: the handler raises before it reaches the tree. *)
Lemma user_turn_without_credential :
  chat sample_uuid4 (stub []) 2
    (ChatRequest.mk "Hi" (Some "a") true) None sample_world
  = (Raised (HTTPException 400 "OpenAI API key is required"), sample_world).
Proof. vm_compute. reflexivity. Qed.

(** C2 (amended). For every prompt and optional parent id, a user turn
    submitted with a credential succeeds without calling the provider:
    it runs [add_node] once with [is_user = True], which stores one node
    under one newly drawn id, and returns the view of that node.
    Submitted without a credential it fails with the 400 error and
    changes nothing. *)
Theorem user_turn uuid4 create fuel chat_request api_key w :
  ChatRequest.is_user chat_request = true →
  let prompt := ChatRequest.prompt chat_request in
  let pid := ChatRequest.parent_id chat_request in
  let uuid := uuid4 (uuid_calls w) in
  (truthy api_key = true →
   ∃ w',
     chat uuid4 create fuel chat_request api_key w
     = (Returned (UserTurn {| NodeView.id := uuid; NodeView.content := prompt;
                              NodeView.parent_id := pid;
                              NodeView.is_user := true |}), w') ∧
     chat_tree w' = fst (add_node uuid prompt pid true (chat_tree w)) ∧
     uuid_calls w' = S (uuid_calls w) ∧
     provider_calls w' = provider_calls w ∧
     nodes (chat_tree w') !! uuid
       = Some {| id := uuid; content := prompt; parent_id := pid;
                 children := []; is_user := true |} ∧
     (nodes (chat_tree w) !! uuid = None →
      size (nodes (chat_tree w')) = S (size (nodes (chat_tree w))))) ∧
  (truthy api_key = false →
   chat uuid4 create fuel chat_request api_key w
   = (Raised (HTTPException 400 "OpenAI API key is required"), w)).
Proof.
  intros Huser. cbv zeta. split; intros Hkey; unfold chat; rewrite Hkey; [|done].
  rewrite Huser. simpl.
  eexists. split; [reflexivity|]. simpl. split_and!; try done.
  - apply add_node_lookup_eq.
  - apply add_node_size.
Qed.

Lemma user_turn_witness :
  ∃ w',
    chat sample_uuid4 (stub []) 0
      (ChatRequest.mk "Hello again" (Some "a") true) (Some "k") sample_world
    = (Returned (UserTurn (view_of "c" "Hello again" (Some "a") true)), w') ∧
    provider_calls w' = [].
Proof.
  destruct (user_turn sample_uuid4 (stub []) 0
              (ChatRequest.mk "Hello again" (Some "a") true) (Some "k")
              sample_world eq_refl) as [Hok _].
  destruct (Hok eq_refl) as (w' & Hrun & _ & _ & Hcalls & _).
  exists w'. split; [exact Hrun|exact Hcalls].
Defined.

(** C3 (as stated, refuted). When the provider returns no candidate the
    request does not fail: it returns an empty list of views. *)
Lemma no_candidates_succeeds :
  let chat_request := ChatRequest.mk "How are you?" (Some "b") false in
  chat sample_uuid4 (stub []) 2 chat_request (Some "k") sample_world
  = (Returned (Replies []),
     called "k" (completion_args sample_tree chat_request) sample_world).
Proof. vm_compute. reflexivity. Qed.

(** C3 (amended). For a replies request with a credential against a
    reachable tree: when the provider call raises, the request fails with
    the provider's error; when the provider returns no candidate, the
    request succeeds with an empty list of views.  In both cases one
    provider call was made, no id was drawn and the tree is unchanged. *)
Theorem provider_outcome_leaves_tree uuid4 create fuel chat_request api_key w :
  reachable (chat_tree w) →
  size (nodes (chat_tree w)) ≤ fuel →
  truthy api_key = true →
  ChatRequest.is_user chat_request = false →
  let key := default "" api_key in
  let args := completion_args (chat_tree w) chat_request in
  (∀ e, create key args = inl e →
     ∃ w', chat uuid4 create fuel chat_request api_key w
           = (Raised (OpenAIError e), w') ∧
           chat_tree w' = chat_tree w ∧
           uuid_calls w' = uuid_calls w ∧
           provider_calls w' = provider_calls w ++ [(key, args)]) ∧
  (create key args = inr [] →
     ∃ w', chat uuid4 create fuel chat_request api_key w
           = (Returned (Replies []), w') ∧
           chat_tree w' = chat_tree w ∧
           uuid_calls w' = uuid_calls w ∧
           provider_calls w' = provider_calls w ++ [(key, args)]).
Proof.
  intros Hreach Hfuel Hkey Huser. cbv zeta.
  rewrite (chat_replies_run uuid4 create fuel chat_request api_key w)
    by done.
  cbv zeta. split.
  - intros e ->. eexists. split; [reflexivity|]. done.
  - intros ->. eexists. split; [reflexivity|]. simpl. split_and!; [done|lia|done].
Qed.

Lemma provider_outcome_leaves_tree_witness :
  ∃ w',
    chat sample_uuid4 (λ _ _, inl "rate limit") 2
      (ChatRequest.mk "How are you?" (Some "b") false) (Some "k") sample_world
    = (Raised (OpenAIError "rate limit"), w') ∧
    chat_tree w' = sample_tree.
Proof.
  destruct (provider_outcome_leaves_tree sample_uuid4 (λ _ _, inl "rate limit") 2
              (ChatRequest.mk "How are you?" (Some "b") false) (Some "k")
              sample_world sample_tree_reachable
              ltac:(compute_done) eq_refl eq_refl) as [Hfail _].
  destruct (Hfail "rate limit" eq_refl) as (w' & Hrun & Htree & _).
  exists w'. split; [exact Hrun|exact Htree].
Defined.

(** C5. For a replies request with a credential against a reachable tree,
    when the provider returns [choices] and the ids drawn are new to the
    store and pairwise distinct: one node is stored per distinct content
    of [choices], in first-occurrence order, each with the request's
    [parent_id] and [is_user = False]; the views returned list them in
    that order, and a parent that resolves gains their ids, in that
    order, at the end of its [children].  For the candidates
    "I'm good", "I'm good", "Great!" that is exactly two nodes,
    "I'm good" then "Great!". *)
Theorem replies_deduplicated uuid4 create fuel chat_request api_key w choices :
  reachable (chat_tree w) →
  size (nodes (chat_tree w)) ≤ fuel →
  truthy api_key = true →
  ChatRequest.is_user chat_request = false →
  create (default "" api_key) (completion_args (chat_tree w) chat_request)
    = inr choices →
  let pid := ChatRequest.parent_id chat_request in
  let k := uuid_calls w in
  let unique := first_occurrences choices in
  fresh_ids (chat_tree w) (drawn uuid4 k (length unique)) →
  ∃ views w',
    chat uuid4 create fuel chat_request api_key w
      = (Returned (Replies views), w') ∧
    NodeView.content <$> views = unique ∧
    NodeView.id <$> views = drawn uuid4 k (length unique) ∧
    Forall (λ v, NodeView.parent_id v = pid ∧ NodeView.is_user v = false) views ∧
    NoDup unique ∧
    (∀ c, c ∈ unique ↔ c ∈ choices) ∧
    size (nodes (chat_tree w')) = size (nodes (chat_tree w)) + length unique ∧
    (∀ i c, unique !! i = Some c →
       ∃ n, nodes (chat_tree w') !! uuid4 (k + i) = Some n ∧
            id n = uuid4 (k + i) ∧ content n = c ∧
            parent_id n = pid ∧ is_user n = false) ∧
    (∀ p pn, pid = Some p → nodes (chat_tree w) !! p = Some pn →
       ∃ pn', nodes (chat_tree w') !! p = Some pn' ∧
              children pn' = children pn ++ drawn uuid4 k (length unique)) ∧
    (choices = ["I'm good"; "I'm good"; "Great!"] →
       NodeView.content <$> views = ["I'm good"; "Great!"] ∧
       size (nodes (chat_tree w')) = size (nodes (chat_tree w)) + 2).
Proof.
  intros Hreach Hfuel Hkey Huser Hcreate. cbv zeta. intros Hfresh.
  rewrite (chat_replies_run uuid4 create fuel chat_request api_key w)
    by done.
  cbv zeta. rewrite Hcreate.
  destruct (add_replies_fresh uuid4 (ChatRequest.parent_id chat_request)
              (first_occurrences choices) (uuid_calls w) (chat_tree w) Hfresh)
    as [Hsize Hlook].
  eexists _, _. split; [reflexivity|]. simpl. split_and!.
  - apply reply_views_content.
  - apply reply_views_id.
  - apply reply_views_parent.
  - apply first_occurrences_NoDup.
  - intros c. apply first_occurrences_elem.
  - done.
  - done.
  - intros p pn -> Hp. apply add_replies_children; [|done|].
    + apply (inv_root _ (reachable_inv _ Hreach) p). eauto.
    + destruct Hfresh as [_ Hnew]. rewrite Forall_forall in Hnew.
      intros Hin. specialize (Hnew p Hin). congruence.
  - intros ->. rewrite reply_views_content. by rewrite Hsize.
Qed.

Lemma replies_deduplicated_witness :
  ∃ views w',
    chat sample_uuid4 (stub ["I'm good"; "I'm good"; "Great!"]) 2
      (ChatRequest.mk "How are you?" (Some "b") false) (Some "k") sample_world
    = (Returned (Replies views), w') ∧
    NodeView.content <$> views = ["I'm good"; "Great!"] ∧
    size (nodes (chat_tree w')) = size (nodes sample_tree) + 2.
Proof.
  destruct (replies_deduplicated sample_uuid4
              (stub ["I'm good"; "I'm good"; "Great!"]) 2
              (ChatRequest.mk "How are you?" (Some "b") false) (Some "k")
              sample_world ["I'm good"; "I'm good"; "Great!"]
              sample_tree_reachable ltac:(compute_done) eq_refl eq_refl eq_refl
              ltac:(compute_done))
    as (views & w' & Hrun & _ & _ & _ & _ & _ & _ & _ & _ & Hscenario).
  exists views, w'. split; [exact Hrun|]. apply Hscenario. reflexivity.
Defined.

(** * Further properties *)

(** ** One call of [add_node] *)

(** X1. In a reachable tree, [add_node] under a parent that is stored
    appends the new id at the end of that parent's [children], and
    leaves the parent's other fields as they were. *)
Theorem add_node_appends_child uuid text p iu t pn :
  reachable t →
  nodes t !! p = Some pn →
  nodes t !! uuid = None →
  ∃ pn', nodes (fst (add_node uuid text (Some p) iu t)) !! p = Some pn' ∧
         children pn' = children pn ++ [uuid] ∧
         id pn' = id pn ∧ content pn' = content pn ∧
         parent_id pn' = parent_id pn ∧ is_user pn' = is_user pn.
Proof.
  intros Hinv%reachable_inv Hp Hnew.
  assert (p ≠ uuid) as Hne by congruence.
  exists (append_child uuid pn). split; [|done].
  rewrite add_node_lookup_ne, Hp by done. unfold relinked.
  rewrite (inv_root t Hinv p) by eauto.
  by rewrite bool_decide_eq_true_2.
Qed.

Lemma add_node_appends_child_witness :
  ∃ pn', nodes (fst (add_node "c" "Again" (Some "a") true sample_tree)) !! "a"
           = Some pn' ∧
         children pn' = ["b"; "c"].
Proof.
  destruct (add_node_appends_child "c" "Again" "a" true sample_tree
              (append_child "b" (Node_init "a" greeting None false))
              sample_tree_reachable ltac:(compute_done) ltac:(compute_done))
    as (pn' & Hpn' & Hch & _).
  exists pn'. split; [exact Hpn'|exact Hch].
Defined.

(** X2. [add_node] never rewrites a node that is already stored under
    another id: its id, content, parent and author stay, and its
    [children] either stay or gain the new id at the end, the latter
    only for the parent named in the call. *)
Theorem add_node_keeps_stored uuid text pid iu t k n :
  nodes t !! k = Some n →
  k ≠ uuid →
  ∃ n', nodes (fst (add_node uuid text pid iu t)) !! k = Some n' ∧
        id n' = id n ∧ content n' = content n ∧
        parent_id n' = parent_id n ∧ is_user n' = is_user n ∧
        (children n' = children n ∨
         (children n' = children n ++ [uuid] ∧ pid = Some k)).
Proof.
  intros Hn Hk. exists (relinked uuid pid t k n).
  rewrite add_node_lookup_ne, Hn by done.
  destruct (relinked_fields uuid pid t k n) as (-> & -> & -> & ->).
  split_and!; try done.
  unfold relinked. destruct (truthy (root_id t)); simpl; [|by left].
  case_bool_decide; [by right|by left].
Qed.

Lemma add_node_keeps_stored_witness :
  ∃ n', nodes (fst (add_node "c" "Again" (Some "a") true sample_tree)) !! "b"
          = Some n' ∧
        content n' = "Hi" ∧ parent_id n' = Some "a".
Proof.
  destruct (add_node_keeps_stored "c" "Again" (Some "a") true sample_tree
              "b" (Node_init "b" "Hi" (Some "a") true)
              ltac:(compute_done) ltac:(discriminate))
    as (n' & Hn' & _ & Hc & Hp & _).
  exists n'. split_and!; [exact Hn'|exact Hc|exact Hp].
Defined.

(** X3. After [add_node] the keys of the store are the old keys and the
    new id, and nothing else: no key is ever dropped.  The store grows by
    one node, unless the id was already a key, in which case the node
    stored under it is replaced and the size stays. *)
Theorem add_node_keys uuid content pid iu t :
  dom (nodes (fst (add_node uuid content pid iu t))) = {[uuid]} ∪ dom (nodes t) ∧
  size (nodes (fst (add_node uuid content pid iu t)))
    = (if decide (is_Some (nodes t !! uuid))
       then size (nodes t) else S (size (nodes t))).
Proof.
  split; [apply add_node_dom|].
  case_decide as Hu.
  - rewrite <- !size_dom, add_node_dom. f_equal.
    apply elem_of_dom in Hu.
    by apply subseteq_union_1_L, singleton_subseteq_l.
  - apply add_node_size. by apply eq_None_not_Some.
Qed.

(** ** Reachable trees *)

(** X4. In a reachable tree every node is stored under its own id, and
    no id is the empty string. *)
Theorem stored_under_own_id t k n :
  reachable t → nodes t !! k = Some n → id n = k ∧ k ≠ "".
Proof. intros Hinv%reachable_inv. apply (inv_key t Hinv). Qed.

Lemma stored_under_own_id_witness :
  id (Node_init "b" "Hi" (Some "a") true) = "b" ∧ "b" ≠ "".
Proof.
  apply (stored_under_own_id sample_tree "b" _ sample_tree_reachable).
  compute_done.
Defined.

Lemma rooted_add_node uuid content pid iu t :
  rooted t → fresh_uuid t pid uuid →
  rooted (fst (add_node uuid content pid iu t)).
Proof.
  intros Hroot (Hu & Hnew & Hpid & Href). right.
  destruct Hroot as [[Hr He]|(r & n & Hr & Hne & Hn & Hid & Hup)].
  - exists uuid, (Node_init uuid content pid iu). split_and!; try done.
    + by rewrite add_node_root, Hr.
    + apply add_node_lookup_eq.
    + cbn [parent_id Node_init].
      destruct (loop_node _ pid) as [pn|] eqn:E; [|done].
      apply loop_node_Some in E as (p & -> & _ & Hp).
      rewrite add_node_lookup_ne, He, lookup_empty in Hp by congruence.
      done.
  - assert (r ≠ uuid) as Hru by congruence.
    exists r, (relinked uuid pid t r n).
    destruct (relinked_fields uuid pid t r n) as (-> & _ & -> & _).
    split_and!; try done.
    + rewrite add_node_root, Hr.
      apply truthy_Some in Hne. by rewrite Hne.
    + by rewrite add_node_lookup_ne, Hn by done.
    + destruct (loop_node (nodes (fst (add_node uuid content pid iu t)))
                  (parent_id n)) as [pn|] eqn:E; [|done].
      apply loop_node_Some in E as (p & Hp & Hpe & Hpn).
      assert (p ≠ uuid) as Hpu.
      { intros ->. by apply (Href _ _ Hn). }
      rewrite add_node_lookup_ne in Hpn by done.
      destruct (nodes t !! p) as [pn0|] eqn:E0; [|done].
      assert (loop_node (nodes t) (parent_id n) = Some pn0) as Habs.
      { apply loop_node_Some. eauto. }
      congruence.
Qed.

Lemma rooted_of_reachable t : reachable t → rooted t.
Proof.
  induction 1 as [|uuid content pid iu t _ IH Hfresh|uuid t _ _ Hu].
  - by left.
  - by apply rooted_add_node.
  - rewrite init_chat_tree_unfold.
    apply rooted_add_node; [by left|by apply fresh_uuid_new].
Qed.

(** X5. A reachable tree has no root exactly when its store is empty;
    otherwise [root_id] is the id of a stored node, and that node's own
    [parent_id] is absent, empty or no key of the store. *)
Theorem reachable_rooted t : reachable t → rooted t.
Proof. apply rooted_of_reachable. Qed.

Lemma reachable_rooted_witness : rooted sample_tree.
Proof. apply reachable_rooted, sample_tree_reachable. Defined.

(** X6. In a reachable tree no [children] list holds an id twice, and no
    node is its own child or its own parent. *)
Theorem children_distinct t k n :
  reachable t → nodes t !! k = Some n →
  NoDup (children n) ∧ (k ∉ children n) ∧ (parent_id n ≠ Some k).
Proof.
  intros Hinv%reachable_inv Hn.
  destruct (inv_rank t Hinv) as [rank Hrank].
  assert (parent_id n ≠ Some k) as Hself.
  { intros Hp. destruct (Hrank _ _ Hn) as [_ Hup].
    specialize (Hup k Hp (mk_is_Some _ _ Hn)). lia. }
  split_and!; [| |done].
  - apply NoDup_ListNoDup, (NoDup_count_occ String.string_dec). intros c.
    destruct (decide (c ∈ children n)) as [Hc|Hc].
    + destruct (inv_children t Hinv _ _ _ Hn Hc) as (m & Hm & Hmp).
      by rewrite (inv_parent t Hinv _ _ _ _ Hm Hmp Hn).
    + rewrite list_elem_of_In in Hc.
      by rewrite (proj1 (count_occ_not_In String.string_dec _ _) Hc); lia.
  - intros Hc.
    destruct (inv_children t Hinv _ _ _ Hn Hc) as (m & Hm & Hmp).
    congruence.
Qed.

Lemma children_distinct_witness :
  NoDup ["b"] ∧ ("a" ∉ ["b"]) ∧ (None ≠ Some "a").
Proof.
  apply (children_distinct sample_tree "a"
           (append_child "b" (Node_init "a" greeting None false))
           sample_tree_reachable).
  compute_done.
Defined.

(** ** The history of a node *)

Lemma build_history_acc fuel nodes cur acc :
  build_history fuel nodes cur acc
  = (λ l, l ++ acc) <$> build_history fuel nodes cur [].
Proof.
  revert cur acc. induction fuel as [|fuel IH]; intros cur acc; simpl.
  - by destruct (loop_node nodes cur).
  - destruct (loop_node nodes cur) as [n|]; [|done].
    rewrite (IH _ (turn_of n :: acc)), (IH _ [turn_of n]).
    destruct (build_history fuel nodes (parent_id n) []) as [l|]; [|done].
    simpl. by rewrite <- app_assoc.
Qed.

Lemma build_history_unresolved fuel nodes cur acc :
  loop_node nodes cur = None → build_history fuel nodes cur acc = Some acc.
Proof. intros Hcur. destruct fuel; simpl; by rewrite Hcur. Qed.

Lemma loop_node_unresolved nodes cur :
  truthy cur = false ∨ contains nodes cur = false → loop_node nodes cur = None.
Proof.
  unfold loop_node. intros [->|Hc]; [done|].
  destruct (truthy cur); [|done].
  destruct cur as [k|]; [|done]. simpl in *.
  apply bool_decide_eq_false in Hc. by apply eq_None_not_Some.
Qed.

Lemma loop_node_add_node uuid text pid iu t cur :
  cur ≠ Some uuid →
  match loop_node (nodes t) cur,
        loop_node (nodes (fst (add_node uuid text pid iu t))) cur with
  | Some n, Some n' => turn_of n' = turn_of n ∧ parent_id n' = parent_id n
  | None, None => True
  | _, _ => False
  end.
Proof.
  intros Hcur. unfold loop_node. destruct (truthy cur); [|done].
  destruct cur as [k|]; [|done]. cbn [mbind option_bind].
  rewrite add_node_lookup_ne by congruence.
  destruct (nodes t !! k) as [n|]; [|done]. cbn [fmap option_fmap option_map].
  destruct (relinked_fields uuid pid t k n) as (_ & Hc & Hp & Hu).
  split; [|done]. unfold turn_of, role_of. by rewrite Hc, Hu.
Qed.

Lemma build_history_add_node uuid text pid iu t fuel cur acc :
  fresh_uuid t pid uuid →
  cur ≠ Some uuid →
  build_history fuel (nodes (fst (add_node uuid text pid iu t))) cur acc
  = build_history fuel (nodes t) cur acc.
Proof.
  intros (_ & _ & _ & Href). revert cur acc.
  induction fuel as [|fuel IH]; intros cur acc Hcur; cbn [build_history];
    pose proof (loop_node_add_node uuid text pid iu t cur Hcur) as Hloop;
    destruct (loop_node (nodes t) cur) as [n|] eqn:E,
             (loop_node (nodes (fst (add_node uuid text pid iu t))) cur)
               as [n'|]; try done.
  destruct Hloop as [-> Hp]. rewrite Hp. apply IH.
  apply loop_node_Some in E as (k & _ & _ & Hn).
  by apply (Href _ _ Hn).
Qed.

(** X7. Storing a new node does not change the history of any node that
    was there before: started anywhere but at the new id, the history
    loop builds the same turns in the tree after [add_node] as before. *)
Theorem history_unchanged_by_add_node uuid text pid iu t fuel cur acc :
  fresh_uuid t pid uuid →
  cur ≠ Some uuid →
  build_history fuel (nodes (fst (add_node uuid text pid iu t))) cur acc
  = build_history fuel (nodes t) cur acc.
Proof. apply build_history_add_node. Qed.

Lemma history_unchanged_by_add_node_witness :
  build_history 2
    (nodes (fst (add_node "c" "Again" (Some "a") true sample_tree)))
    (Some "b") []
  = build_history 2 (nodes sample_tree) (Some "b") [].
Proof.
  apply history_unchanged_by_add_node; [compute_done|discriminate].
Defined.

(** X8. The history of a node just stored is the history of the parent
    it names followed by its own turn, with role "user" or "assistant"
    after its author. *)
Theorem history_of_new_node uuid text pid iu t fuel messages :
  fresh_uuid t pid uuid →
  build_history fuel (nodes t) pid [] = Some messages →
  build_history (S fuel) (nodes (fst (add_node uuid text pid iu t)))
    (Some uuid) []
  = Some (messages ++
          [ {| Message.role := if iu then "user" else "assistant";
               Message.content := text |} ]).
Proof.
  intros Hfresh Hm.
  pose proof Hfresh as (Hu & _ & Hpid & _).
  cbn [build_history].
  assert (loop_node (nodes (fst (add_node uuid text pid iu t))) (Some uuid)
          = Some (Node_init uuid text pid iu)) as ->.
  { apply loop_node_Some. exists uuid. split_and!; [done..|].
    apply add_node_lookup_eq. }
  cbn [parent_id Node_init].
  rewrite build_history_add_node by done.
  by rewrite build_history_acc, Hm.
Qed.

Lemma history_of_new_node_witness :
  build_history 3
    (nodes (fst (add_node "c" "Again" (Some "b") false sample_tree)))
    (Some "c") []
  = Some ([ {| Message.role := "assistant"; Message.content := greeting |};
            {| Message.role := "user"; Message.content := "Hi" |} ]
          ++ [ {| Message.role := "assistant"; Message.content := "Again" |} ]).
Proof.
  apply (history_of_new_node "c" "Again" (Some "b") false sample_tree 2).
  - compute_done.
  - vm_compute. reflexivity.
Defined.

(** ** What a replies request sends and returns *)

(** X9. A replies request whose [parent_id] is absent, empty or no key
    of the store never loops: whatever the tree and the fuel, the
    provider is called once, with the prompt as the only message. *)
Theorem replies_without_ancestors uuid4 create fuel chat_request api_key w :
  truthy api_key = true →
  ChatRequest.is_user chat_request = false →
  truthy (ChatRequest.parent_id chat_request) = false ∨
  contains (nodes (chat_tree w)) (ChatRequest.parent_id chat_request) = false →
  fst (chat uuid4 create fuel chat_request api_key w) ≠ OutOfFuel ∧
  provider_calls (snd (chat uuid4 create fuel chat_request api_key w))
  = provider_calls w ++
    [(default "" api_key,
      {| Completion.model := "gpt-3.5-turbo";
         Completion.messages :=
           [ {| Message.role := "user";
                Message.content := ChatRequest.prompt chat_request |} ];
         Completion.n := 3;
         Completion.temperature := sampling_temperature |})].
Proof.
  intros Hkey Huser Hpid%loop_node_unresolved.
  unfold chat. rewrite Hkey, Huser. cbn [negb].
  unfold bind, history. rewrite build_history_unresolved by done.
  unfold completions_create. cbn [app].
  destruct (create _ _) as [e|choices]; [done|].
  by rewrite for_choices_spec.
Qed.

Lemma replies_without_ancestors_witness :
  provider_calls
    (snd (chat sample_uuid4 (stub ["Fine"]) 0
            (ChatRequest.mk "Anyone?" (Some "gone") false) (Some "k")
            sample_world))
  = [("k", {| Completion.model := "gpt-3.5-turbo";
              Completion.messages :=
                [ {| Message.role := "user"; Message.content := "Anyone?" |} ];
              Completion.n := 3;
              Completion.temperature := sampling_temperature |})].
Proof.
  apply (replies_without_ancestors sample_uuid4 (stub ["Fine"]) 0
           (ChatRequest.mk "Anyone?" (Some "gone") false) (Some "k")
           sample_world eq_refl eq_refl).
  right. compute_done.
Defined.

(** X10. A replies request with a credential against a reachable tree
    calls the provider exactly once, whatever the provider then does.
    The messages it sends are the turns of the chain that ends at the
    named parent, root first, each with role "user" or "assistant" after
    its author, followed by the prompt as a "user" turn; the model is
    "gpt-3.5-turbo" and three candidates are asked for. *)
Theorem history_sent uuid4 create fuel chat_request api_key w :
  reachable (chat_tree w) →
  size (nodes (chat_tree w)) ≤ fuel →
  truthy api_key = true →
  ChatRequest.is_user chat_request = false →
  ∃ chain,
    walk fuel (nodes (chat_tree w)) (ChatRequest.parent_id chat_request) []
      = Some chain ∧
    linked chain ∧
    last chain
      = loop_node (nodes (chat_tree w)) (ChatRequest.parent_id chat_request) ∧
    provider_calls (snd (chat uuid4 create fuel chat_request api_key w))
    = provider_calls w ++
      [(default "" api_key,
        {| Completion.model := "gpt-3.5-turbo";
           Completion.messages :=
             (turn_of <$> chain) ++
             [ {| Message.role := "user";
                  Message.content := ChatRequest.prompt chat_request |} ];
           Completion.n := 3;
           Completion.temperature := sampling_temperature |})].
Proof.
  intros Hreach Hfuel Hkey Huser.
  destruct (reachable_walk (chat_tree w)
              (ChatRequest.parent_id chat_request) Hreach)
    as (chain & Hw & _ & Hlink & Hlast & _).
  exists chain. split_and!; [by apply Hw|done..|].
  rewrite (chat_replies_run uuid4 create fuel chat_request api_key w) by done.
  cbv zeta.
  assert (completion_args (chat_tree w) chat_request
          = {| Completion.model := "gpt-3.5-turbo";
               Completion.messages :=
                 (turn_of <$> chain) ++
                 [ {| Message.role := "user";
                      Message.content := ChatRequest.prompt chat_request |} ];
               Completion.n := 3;
               Completion.temperature := sampling_temperature |}) as ->.
  { unfold completion_args.
    change (@nil Message.t) with (turn_of <$> @nil Node).
    by rewrite build_history_walk, (Hw _ (le_n _)). }
  by destruct (create _ _).
Qed.

Lemma history_sent_witness :
  ∃ chain,
    walk 2 (nodes sample_tree) (Some "b") [] = Some chain ∧
    provider_calls
      (snd (chat sample_uuid4 (stub ["Fine"]) 2
              (ChatRequest.mk "And you?" (Some "b") false) (Some "k")
              sample_world))
    = [("k", {| Completion.model := "gpt-3.5-turbo";
                Completion.messages :=
                  (turn_of <$> chain) ++
                  [ {| Message.role := "user";
                       Message.content := "And you?" |} ];
                Completion.n := 3;
                Completion.temperature := sampling_temperature |})].
Proof.
  destruct (history_sent sample_uuid4 (stub ["Fine"]) 2
              (ChatRequest.mk "And you?" (Some "b") false) (Some "k")
              sample_world sample_tree_reachable ltac:(compute_done)
              eq_refl eq_refl)
    as (chain & Hw & _ & _ & Hcalls).
  exists chain. split; [exact Hw|exact Hcalls].
Defined.

Lemma first_occurrences_length l : length (first_occurrences l) ≤ length l.
Proof.
  induction l as [|c rest IH]; simpl; [done|].
  pose proof (length_filter (λ x, x ≠ c) (first_occurrences rest)). lia.
Qed.

(** X11. When the provider returns, a replies request returns at most as
    many views as there are candidates, and no view exactly when there
    is no candidate; it draws one id per view returned. *)
Theorem replies_count uuid4 create fuel chat_request api_key w choices :
  reachable (chat_tree w) →
  size (nodes (chat_tree w)) ≤ fuel →
  truthy api_key = true →
  ChatRequest.is_user chat_request = false →
  create (default "" api_key) (completion_args (chat_tree w) chat_request)
    = inr choices →
  ∃ views w',
    chat uuid4 create fuel chat_request api_key w
      = (Returned (Replies views), w') ∧
    length views ≤ length choices ∧
    (views = [] ↔ choices = []) ∧
    uuid_calls w' = uuid_calls w + length views.
Proof.
  intros Hreach Hfuel Hkey Huser Hcreate.
  rewrite (chat_replies_run uuid4 create fuel chat_request api_key w) by done.
  cbv zeta. rewrite Hcreate. eexists _, _. split; [reflexivity|].
  assert (∀ k pid, length (reply_items uuid4 k pid (first_occurrences choices)).*2
                   = length (first_occurrences choices)) as Hlen.
  { intros k pid.
    by rewrite <- (length_fmap NodeView.content), reply_views_content. }
  cbn [uuid_calls]. rewrite Hlen. split_and!.
  - apply first_occurrences_length.
  - split.
    + intros Hnil. pose proof (Hlen (uuid_calls w)
                                 (ChatRequest.parent_id chat_request)) as Hl.
      rewrite Hnil in Hl. by destruct choices.
    + by intros ->.
  - done.
Qed.

Lemma replies_count_witness :
  ∃ views w',
    chat sample_uuid4 (stub ["Fine"; "Fine"; "Fine"]) 2
      (ChatRequest.mk "And you?" (Some "b") false) (Some "k") sample_world
    = (Returned (Replies views), w') ∧
    length views ≤ 3 ∧
    uuid_calls w' = 2 + length views.
Proof.
  destruct (replies_count sample_uuid4 (stub ["Fine"; "Fine"; "Fine"]) 2
              (ChatRequest.mk "And you?" (Some "b") false) (Some "k")
              sample_world ["Fine"; "Fine"; "Fine"]
              sample_tree_reachable ltac:(compute_done)
              eq_refl eq_refl eq_refl)
    as (views & w' & Hrun & Hle & _ & Hdraws).
  exists views, w'. split_and!; [exact Hrun|exact Hle|exact Hdraws].
Defined.

(** ** The application as a whole *)

Lemma fresh_uuid_add_node uuid uuid' text pid iu t :
  fresh_uuid t pid uuid →
  fresh_uuid t pid uuid' →
  uuid' ≠ uuid →
  fresh_uuid (fst (add_node uuid text pid iu t)) pid uuid'.
Proof.
  intros _ (Hu & Hnew & Hpid & Href) Hne. unfold fresh_uuid. split_and!.
  - done.
  - by rewrite add_node_lookup_ne, Hnew.
  - done.
  - intros k n' [[-> ->]|(Hk & n & Hn & ->)]%add_node_lookup_Some.
    + done.
    + destruct (relinked_fields uuid pid t k n) as (_ & _ & -> & _).
      by apply (Href _ _ Hn).
Qed.

Lemma add_replies_reachable uuid4 pid contents k t :
  reachable t →
  fresh_draws t pid (drawn uuid4 k (length contents)) →
  reachable (add_replies uuid4 k pid contents t).
Proof.
  revert k t. induction contents as [|c rest IH]; intros k t Hreach;
    cbn [add_replies length]; [done|].
  rewrite drawn_cons. intros [[Hu Hnd]%NoDup_cons [Hnew Hrest]%Forall_cons].
  apply IH.
  - by apply reach_add_node.
  - split; [done|]. apply Forall_forall. intros u Hin.
    rewrite Forall_forall in Hrest.
    apply fresh_uuid_add_node; [done|by apply Hrest|by intros ->].
Qed.

Lemma chat_world uuid4 create fuel chat_request api_key w :
  let w' := snd (chat uuid4 create fuel chat_request api_key w) in
  let pid := ChatRequest.parent_id chat_request in
  (chat_tree w'
   = fst (add_node (uuid4 (uuid_calls w)) (ChatRequest.prompt chat_request)
            pid true (chat_tree w)) ∧
   uuid_calls w' = S (uuid_calls w)) ∨
  (∃ new, chat_tree w' = add_replies uuid4 (uuid_calls w) pid new (chat_tree w) ∧
          uuid_calls w' = uuid_calls w + length new).
Proof.
  cbv zeta. unfold chat.
  destruct (truthy api_key); cbn [negb].
  2: { right. exists []. simpl. split; [done|lia]. }
  destruct (ChatRequest.is_user chat_request).
  { left. by split. }
  right. unfold bind, history.
  destruct (build_history _ _ _ _) as [messages|].
  2: { exists []. simpl. split; [done|lia]. }
  unfold completions_create.
  destruct (create _ _) as [e|choices].
  { exists []. simpl. split; [done|lia]. }
  rewrite for_choices_spec. cbv zeta. eexists. split; reflexivity.
Qed.

Lemma chat_keeps_reachable uuid4 create fuel chat_request api_key w :
  reachable (chat_tree w) →
  fresh_draws (chat_tree w) (ChatRequest.parent_id chat_request)
    (drawn uuid4 (uuid_calls w)
       (uuid_calls (snd (chat uuid4 create fuel chat_request api_key w))
        - uuid_calls w)) →
  reachable (chat_tree (snd (chat uuid4 create fuel chat_request api_key w))).
Proof.
  intros Hreach.
  destruct (chat_world uuid4 create fuel chat_request api_key w)
    as [[-> ->]|(new & -> & ->)].
  - replace (S (uuid_calls w) - uuid_calls w) with 1 by lia.
    intros [_ [Hfresh _]%Forall_cons]. by apply reach_add_node.
  - replace (uuid_calls w + length new - uuid_calls w) with (length new) by lia.
    by apply add_replies_reachable.
Qed.

Lemma add_replies_subseteq uuid4 pid contents k t :
  dom (nodes t) ⊆ dom (nodes (add_replies uuid4 k pid contents t)).
Proof.
  revert k t. induction contents as [|c rest IH]; intros k t;
    cbn [add_replies]; [done|].
  etrans; [|apply IH]. rewrite add_node_dom. apply union_subseteq_r.
Qed.

Lemma chat_keeps_keys uuid4 create fuel chat_request api_key w :
  dom (nodes (chat_tree w))
  ⊆ dom (nodes (chat_tree (snd (chat uuid4 create fuel chat_request api_key w)))).
Proof.
  destruct (chat_world uuid4 create fuel chat_request api_key w)
    as [[-> _]|(new & -> & _)].
  - rewrite add_node_dom. apply union_subseteq_r.
  - apply add_replies_subseteq.
Qed.

Lemma served_tree uuid4 w :
  served uuid4 w →
  reachable (chat_tree w) ∧ ∃ k, k ∈ dom (nodes (chat_tree w)).
Proof.
  induction 1 as [Hu|create fuel chat_request api_key w _ [IH [k Hk]] Hdraws
                  |w _ [IH _] Hu|w _ IH].
  - split; [apply reach_reset; [apply reach_new|done]|].
    exists (uuid4 0). apply elem_of_dom.
    cbn [startup_event call_init_chat_tree snd chat_tree World_init uuid_calls].
    rewrite init_chat_tree_unfold, add_node_lookup_eq. eauto.
  - split; [by apply chat_keeps_reachable|].
    exists k. by apply chat_keeps_keys.
  - cbn [reset_tree bind call_init_chat_tree ret snd chat_tree].
    split; [by apply reach_reset|].
    exists (uuid4 (uuid_calls w)). apply elem_of_dom.
    rewrite init_chat_tree_unfold, add_node_lookup_eq. eauto.
  - done.
Qed.

(** X12. Every world the application goes through, from the startup
    event on and through any sequence of [/chat], [/reset] and [/tree]
    requests with fresh ids, holds a reachable tree: a failed or
    fuel-starved request included, nothing a handler does leads
    elsewhere. *)
Theorem served_reachable uuid4 w : served uuid4 w → reachable (chat_tree w).
Proof. intros Hw. by destruct (served_tree uuid4 w Hw). Qed.

Lemma served_reachable_witness :
  reachable
    (chat_tree
       (snd (chat sample_uuid4 (stub ["Fine"; "Fine"; "Great!"]) 2
               (ChatRequest.mk "And you?" (Some "b") false) (Some "k")
               (snd (chat sample_uuid4 (stub []) 0
                       (ChatRequest.mk "Hi" (Some "a") true) (Some "k")
                       (snd (startup_event sample_uuid4 World_init))))))).
Proof.
  apply (served_reachable sample_uuid4).
  apply served_chat; [apply served_chat; [apply served_startup|]|].
  - discriminate.
  - compute_done.
  - compute_done.
Defined.

(** X13. Reset, then a user turn under the new root: [/reset] answers
    "success"; the user turn (with a credential, its id differing from
    the root's) leaves a store of exactly two nodes, the greeting with
    the new id as its only child and the user's node under it, and that
    store is what [/tree] then returns. *)
Theorem reset_then_user_turn uuid4 create fuel text api_key w :
  truthy api_key = true →
  uuid4 (uuid_calls w) ≠ "" →
  uuid4 (S (uuid_calls w)) ≠ uuid4 (uuid_calls w) →
  let root := uuid4 (uuid_calls w) in
  let mine := uuid4 (S (uuid_calls w)) in
  let w1 := snd (reset_tree uuid4 w) in
  let w2 := snd (chat uuid4 create fuel
                   (ChatRequest.mk text (Some root) true) api_key w1) in
  let store : gmap string Node :=
    <[ mine := {| id := mine; content := text; parent_id := Some root;
                  children := []; is_user := true |} ]>
    {[ root := {| id := root; content := greeting; parent_id := None;
                  children := [mine]; is_user := false |} ]} in
  fst (reset_tree uuid4 w) = Returned [("status", "success")] ∧
  fst (chat uuid4 create fuel (ChatRequest.mk text (Some root) true) api_key w1)
    = Returned (UserTurn (view_of mine text (Some root) true)) ∧
  root_id (chat_tree w2) = Some root ∧
  size (nodes (chat_tree w2)) = 2 ∧
  get_tree w2 = (Returned [("nodes", store)], w2).
Proof.
  intros Hkey Hroot Hne. cbv zeta.
  set (root := uuid4 (uuid_calls w)) in *.
  set (mine := uuid4 (S (uuid_calls w))) in *.
  set (t1 := fst (add_node root greeting None false ChatTree_init)).
  set (t2 := fst (add_node mine text (Some root) true t1)).
  assert (reset_tree uuid4 w
          = (Returned [("status", "success")],
             {| chat_tree := t1; uuid_calls := S (uuid_calls w);
                provider_calls := provider_calls w |})) as -> by reflexivity.
  cbn [fst snd].
  assert (chat uuid4 create fuel (ChatRequest.mk text (Some root) true) api_key
            {| chat_tree := t1; uuid_calls := S (uuid_calls w);
               provider_calls := provider_calls w |}
          = (Returned (UserTurn (view_of mine text (Some root) true)),
             {| chat_tree := t2; uuid_calls := S (S (uuid_calls w));
                provider_calls := provider_calls w |})) as ->.
  { unfold chat. rewrite Hkey. reflexivity. }
  cbn [fst snd]. unfold get_tree. cbn [chat_tree].
  assert (root_id t1 = Some root) as Hr1 by reflexivity.
  assert (nodes t1 !! root = Some (Node_init root greeting None false)) as Hn1.
  { apply add_node_lookup_eq. }
  assert (∀ k, k ≠ root → nodes t1 !! k = None) as Ho1.
  { intros k Hk. unfold t1. by rewrite add_node_lookup_ne. }
  assert (nodes t2
          = <[ mine := {| id := mine; content := text; parent_id := Some root;
                          children := []; is_user := true |} ]>
            {[ root := {| id := root; content := greeting; parent_id := None;
                          children := [mine]; is_user := false |} ]}) as Hstore.
  { apply map_eq. intros k. unfold t2.
    destruct (decide (k = mine)) as [->|Hk].
    { by rewrite add_node_lookup_eq, lookup_insert_eq. }
    rewrite add_node_lookup_ne, lookup_insert_ne by done.
    destruct (decide (k = root)) as [->|Hkr].
    - rewrite Hn1, lookup_singleton_eq. unfold relinked.
      rewrite Hr1, (proj2 (truthy_Some root) Hroot).
      by rewrite bool_decide_eq_true_2.
    - by rewrite Ho1, lookup_singleton_ne. }
  rewrite Hstore. split_and!; try done.
  - unfold t2. rewrite add_node_root, Hr1.
    by rewrite (proj2 (truthy_Some root) Hroot).
  - rewrite map_size_insert_None by (by rewrite lookup_singleton_ne).
    by rewrite map_size_singleton.
Qed.

Lemma reset_then_user_turn_witness :
  size (nodes (chat_tree
    (snd (chat sample_uuid4 (stub []) 0
            (ChatRequest.mk "Hi" (Some "c") true) (Some "k")
            (snd (reset_tree sample_uuid4 sample_world)))))) = 2.
Proof.
  destruct (reset_then_user_turn sample_uuid4 (stub []) 0 "Hi" (Some "k")
              sample_world eq_refl ltac:(discriminate) ltac:(discriminate))
    as (_ & _ & _ & Hsize & _).
  exact Hsize.
Defined.

(** ** What [/chat] never does *)

Lemma add_replies_root uuid4 pid contents k t :
  truthy (root_id t) = true →
  root_id (add_replies uuid4 k pid contents t) = root_id t.
Proof.
  revert k t. induction contents as [|c rest IH]; intros k t Hroot;
    cbn [add_replies]; [done|].
  rewrite IH; rewrite add_node_root, Hroot; done.
Qed.

(** X14. A request to [/chat] that raises, or whose history loop is cut
    short, has stored nothing: the tree is the one before the request
    and no id was drawn. *)
Theorem chat_failure_stores_nothing uuid4 create fuel chat_request api_key w :
  (∀ response, fst (chat uuid4 create fuel chat_request api_key w)
               ≠ Returned response) →
  chat_tree (snd (chat uuid4 create fuel chat_request api_key w)) = chat_tree w ∧
  uuid_calls (snd (chat uuid4 create fuel chat_request api_key w)) = uuid_calls w.
Proof.
  unfold chat. destruct (truthy api_key); cbn [negb]; [|done].
  destruct (ChatRequest.is_user chat_request).
  { intros Hfail. by destruct (Hfail _ eq_refl). }
  unfold bind, history.
  destruct (build_history _ _ _ _) as [messages|]; [|done].
  unfold completions_create.
  destruct (create _ _) as [e|choices]; [done|].
  rewrite for_choices_spec. intros Hfail. by destruct (Hfail _ eq_refl).
Qed.

Lemma chat_failure_stores_nothing_witness :
  chat_tree
    (snd (chat sample_uuid4 (λ _ _, inl "rate limit") 2
            (ChatRequest.mk "And you?" (Some "b") false) (Some "k")
            sample_world))
  = sample_tree.
Proof.
  apply (chat_failure_stores_nothing sample_uuid4 (λ _ _, inl "rate limit") 2
           (ChatRequest.mk "And you?" (Some "b") false) (Some "k")
           sample_world).
  intros response. vm_compute. discriminate.
Defined.

(** X15. No request to [/chat], whatever its outcome, removes or
    rewrites a stored node: a node stored under an id that the request
    does not draw is still stored under it afterwards, with the same id,
    content, parent and author. *)
Theorem chat_keeps_stored uuid4 create fuel chat_request api_key w k n :
  nodes (chat_tree w) !! k = Some n →
  k ∉ drawn uuid4 (uuid_calls w)
        (uuid_calls (snd (chat uuid4 create fuel chat_request api_key w))
         - uuid_calls w) →
  ∃ n', nodes (chat_tree (snd (chat uuid4 create fuel chat_request api_key w)))
          !! k = Some n' ∧
        id n' = id n ∧ content n' = content n ∧
        parent_id n' = parent_id n ∧ is_user n' = is_user n.
Proof.
  intros Hn.
  destruct (chat_world uuid4 create fuel chat_request api_key w)
    as [[-> ->]|(new & -> & ->)].
  - replace (S (uuid_calls w) - uuid_calls w) with 1 by lia.
    intros [Hk _]%not_elem_of_cons.
    exists (relinked (uuid4 (uuid_calls w))
              (ChatRequest.parent_id chat_request) (chat_tree w) k n).
    split; [by rewrite add_node_lookup_ne, Hn by done|].
    apply relinked_fields.
  - replace (uuid_calls w + length new - uuid_calls w) with (length new) by lia.
    by apply add_replies_persist.
Qed.

Lemma chat_keeps_stored_witness :
  ∃ n', nodes (chat_tree
                 (snd (chat sample_uuid4 (stub ["Fine"; "Great!"]) 2
                         (ChatRequest.mk "And you?" (Some "b") false)
                         (Some "k") sample_world))) !! "b" = Some n' ∧
        content n' = "Hi".
Proof.
  destruct (chat_keeps_stored sample_uuid4 (stub ["Fine"; "Great!"]) 2
              (ChatRequest.mk "And you?" (Some "b") false) (Some "k")
              sample_world "b" (Node_init "b" "Hi" (Some "a") true)
              ltac:(compute_done) ltac:(compute_done))
    as (n' & Hn' & _ & Hc & _).
  exists n'. split; [exact Hn'|exact Hc].
Defined.

(** X16. Once the tree has a root, no request to [/chat] changes
    [root_id], whatever the request and its outcome. *)
Theorem chat_keeps_root uuid4 create fuel chat_request api_key w :
  truthy (root_id (chat_tree w)) = true →
  root_id (chat_tree (snd (chat uuid4 create fuel chat_request api_key w)))
  = root_id (chat_tree w).
Proof.
  intros Hroot.
  destruct (chat_world uuid4 create fuel chat_request api_key w)
    as [[-> _]|(new & -> & _)].
  - by rewrite add_node_root, Hroot.
  - by apply add_replies_root.
Qed.

Lemma chat_keeps_root_witness :
  root_id (chat_tree
             (snd (chat sample_uuid4 (stub ["Fine"; "Great!"]) 2
                     (ChatRequest.mk "And you?" None false) (Some "k")
                     sample_world)))
  = Some "a".
Proof.
  apply (chat_keeps_root sample_uuid4 (stub ["Fine"; "Great!"]) 2
           (ChatRequest.mk "And you?" None false) (Some "k") sample_world).
  reflexivity.
Defined.

(** X17. From the startup event on the tree always has a root, and the
    root is a stored node: only [/reset] replaces it, by the new
    greeting. *)
Theorem served_has_root uuid4 w :
  served uuid4 w →
  ∃ r n, root_id (chat_tree w) = Some r ∧ nodes (chat_tree w) !! r = Some n.
Proof.
  intros [Hreach [k Hk]]%served_tree.
  destruct (rooted_of_reachable _ Hreach)
    as [[_ He]|(r & n & Hr & _ & Hn & _)].
  - rewrite He in Hk. by apply elem_of_dom in Hk as [? ?%lookup_empty_Some].
  - eauto.
Qed.

Lemma served_has_root_witness :
  ∃ r n,
    root_id (chat_tree (snd (reset_tree sample_uuid4
                               (snd (startup_event sample_uuid4 World_init)))))
      = Some r ∧
    nodes (chat_tree (snd (reset_tree sample_uuid4
                             (snd (startup_event sample_uuid4 World_init)))))
      !! r = Some n.
Proof.
  apply (served_has_root sample_uuid4).
  apply served_reset; [apply served_startup|]; discriminate.
Defined.
